(** * prometheus-nginxlog-exporter: the line ingestor of [main.go]

    A shallow embedding of [Metrics.Init] and of the per-file ingestor
    goroutine of [main], followed by the properties of the label vector
    and of the metric dispatch.

    Go strings are byte sequences and are modelled as [string]; the
    [labelValues] slice is a [list string] that is allocated once and
    then updated in place, line after line; an index that is out of
    range makes the Go runtime panic, which the [outcome] monad records.
    The calls on the Prometheus vectors are recorded, in order, in a
    trace; a call the client refuses (a wrong number of label values, a
    label value that is not valid UTF-8, a negative amount added to a
    counter) panics inside the client and ends the goroutine as well.
    The line parser (gonx), the regular expression engine and the float
    parser are libraries outside [main.go]: they are variables of the
    section. *)

From Stdlib Require Import Ascii.
From stdpp Require Import base option list gmap strings.
From stdpp Require Import pretty.

Local Open Scope string_scope.
Local Open Scope list_scope.
Local Open Scope nat_scope.

(** ** The Go runtime: outcomes and slices *)

(** An indexing expression is read ([Load]) or assigned to ([Store]). *)
Inductive access : Type := Load | Store.

(** The panics of the Prometheus client: [WithLabelValues] was given
    a number of values other than the number of label names of the
    vector, or a value that is not valid UTF-8; [Counter.Add] was given a
    negative amount. *)
Inductive client_panic : Type :=
| LabelCardinality (expected got : nat)
| InvalidLabelValue (value : string)
| CounterDecrease.

(** A computation either returns, or panics with
    "index out of range [idx] with length len", raised by a read or by
    an assignment, or panics inside the Prometheus client. *)
Inductive outcome (A : Type) : Type :=
| Returns (a : A)
| Panics (acc : access) (idx len : nat)
| Aborts (why : client_panic).

Arguments Returns {A} a.
Arguments Panics {A} acc idx len.
Arguments Aborts {A} why.

Definition bind {A B : Type} (k : A -> outcome B) (m : outcome A) : outcome B :=
  match m with
  | Returns a => k a
  | Panics acc i n => Panics acc i n
  | Aborts why => Aborts why
  end.

#[global] Instance outcome_bind : MBind outcome := @bind.
#[global] Instance outcome_ret : MRet outcome := @Returns.

(** [s[i]] *)
Definition index (s : list string) (i : nat) : outcome string :=
  match s !! i with
  | Some v => Returns v
  | None => Panics Load i (length s)
  end.

(** [s[i] = v] *)
Definition set_index (s : list string) (i : nat) (v : string) : outcome (list string) :=
  if decide (i < length s) then Returns (<[i:=v]> s) else Panics Store i (length s).

Arguments index : simpl never.
Arguments set_index : simpl never.

(** [make([]string, n)] *)
Definition make (n : nat) : list string := replicate n "".

(** [strings.Split(s, sep)] for a separator of one byte: the pieces
    between the separators, [[s]] when there is none (also for the
    empty string). *)
Fixpoint Split (s : string) (sep : ascii) : list string :=
  match s with
  | EmptyString => [EmptyString]
  | String c rest =>
      if Ascii.eqb c sep then EmptyString :: Split rest sep
      else match Split rest sep with
           | [] => [String c EmptyString]
           | piece :: pieces => String c piece :: pieces
           end
  end.

(** [utf8.ValidString(s)], byte by byte: [pending] bytes of the current
    encoding are still to come, the next of them between [lo] and [hi]. *)
Fixpoint valid_from (pending lo hi : nat) (s : string) : bool :=
  match s with
  | EmptyString => pending =? 0
  | String c rest =>
      let b := nat_of_ascii c in
      match pending with
      | 0 =>
          if b <=? 127 then valid_from 0 128 191 rest
          else if (194 <=? b) && (b <=? 223) then valid_from 1 128 191 rest
          else if b =? 224 then valid_from 2 160 191 rest
          else if (225 <=? b) && (b <=? 236) then valid_from 2 128 191 rest
          else if b =? 237 then valid_from 2 128 159 rest
          else if (238 <=? b) && (b <=? 239) then valid_from 2 128 191 rest
          else if b =? 240 then valid_from 3 144 191 rest
          else if (241 <=? b) && (b <=? 243) then valid_from 3 128 191 rest
          else if b =? 244 then valid_from 3 128 143 rest
          else false
      | S pending' =>
          if (lo <=? b) && (b <=? hi) then valid_from pending' 128 191 rest else false
      end
  end.

Definition ValidString (s : string) : bool := valid_from 0 128 191 s.

(** What the client needs to know of a [float64]: whether [v < 0]. *)
Class Float64 (Float : Type) : Type := { negative : Float -> bool }.

(** ** Parsed entries (gonx.Entry) *)

Definition Field (entry : gmap string string) (name : string) : option string :=
  entry !! name.

Inductive parsed : Type :=
| ParseOk (entry : gmap string string)
| ParseErr (err : string).

(** ** Configuration (package config) *)

Record RelabelConfig : Type := {
  TargetLabel : string;
  SourceValue : string;
  WhitelistExists : bool;
  WhitelistMap : gset string
}.

(** ** Prometheus vectors *)

Inductive VecKind : Type := CounterVec | SummaryVec | HistogramVec.

Record MetricVec : Type := {
  vecKind : VecKind;
  vecNamespace : string;
  vecName : string;
  vecHelp : string;
  vecLabels : list string
}.

Record Metrics : Type := {
  countTotal : MetricVec;
  bytesTotal : MetricVec;
  upstreamSeconds : MetricVec;
  upstreamSecondsHist : MetricVec;
  responseSeconds : MetricVec;
  responseSecondsHist : MetricVec
}.

Section Exporter.

(** [*regexp.Regexp] and its [MatchString]. *)
Variable Regexp : Type.
Variable MatchString : Regexp -> string -> bool.

(** [float64] and [strconv.ParseFloat]. *)
Variable Float : Type.
Variable ParseFloat : string -> option Float.
Context {float64 : Float64 Float}.

(** [parser.ParseString] of the parser built from the namespace's format. *)
Variable ParseString : string -> parsed.

Record NamespaceConfig : Type := {
  Name : string;
  SourceFiles : list string;
  Format : string;
  RelabelConfigs : list RelabelConfig;
  OrderedLabelNames : list string;
  OrderedLabelValues : list string;
  Routes : list string;
  CompiledRouteRegexps : list Regexp
}.

(** Modelled from the spec: [NamespaceConfig.HasRouteMatchers] is
    declared in package config, which is not part of the sources at
    hand; the spec's words are "only if at least one route rule is
    configured". *)
Definition HasRouteMatchers (cfg : NamespaceConfig) : bool :=
  0 <? length (Routes cfg).

(** [entry.FloatField(name)] *)
Definition FloatField (entry : gmap string string) (name : string) : option Float :=
  match Field entry name with
  | Some tmp => ParseFloat tmp
  | None => None
  end.

(** The calls made on the vectors, each with a copy of the label
    values it was given. *)
Inductive MetricOp : Type :=
| Inc (vec : MetricVec) (lvs : list string)
| Add (vec : MetricVec) (lvs : list string) (x : Float)
| Observe (vec : MetricVec) (lvs : list string) (x : Float).

(** *** Metrics.Init *)

Definition relabel_targets (cs : list RelabelConfig) (labels : list string) : list string :=
  fold_left (fun acc c => acc ++ [TargetLabel c]) cs labels.

Definition init_labels (cfg : NamespaceConfig) : list string :=
  let labels := ["method"; "status"] in
  let labels := if HasRouteMatchers cfg then labels ++ ["request_uri"] else labels in
  let labels := labels ++ OrderedLabelNames cfg in
  relabel_targets (RelabelConfigs cfg) labels.

Definition Init (cfg : NamespaceConfig) : Metrics :=
  let labels := init_labels cfg in
  {| countTotal :=
       {| vecKind := CounterVec; vecNamespace := Name cfg;
          vecName := "http_response_count_total";
          vecHelp := "Amount of processed HTTP requests";
          vecLabels := labels |};
     bytesTotal :=
       {| vecKind := CounterVec; vecNamespace := Name cfg;
          vecName := "http_response_size_bytes";
          vecHelp := "Total amount of transferred bytes";
          vecLabels := labels |};
     upstreamSeconds :=
       {| vecKind := SummaryVec; vecNamespace := Name cfg;
          vecName := "http_upstream_time_seconds";
          vecHelp := "Time needed by upstream servers to handle requests";
          vecLabels := labels |};
     upstreamSecondsHist :=
       {| vecKind := HistogramVec; vecNamespace := Name cfg;
          vecName := "http_upstream_time_seconds_hist";
          vecHelp := "Time needed by upstream servers to handle requests";
          vecLabels := labels |};
     responseSeconds :=
       {| vecKind := SummaryVec; vecNamespace := Name cfg;
          vecName := "http_response_time_seconds";
          vecHelp := "Time needed by NGINX to handle requests";
          vecLabels := labels |};
     responseSecondsHist :=
       {| vecKind := HistogramVec; vecNamespace := Name cfg;
          vecName := "http_response_time_seconds_hist";
          vecHelp := "Time needed by NGINX to handle requests";
          vecLabels := labels |} |}.

(** The six vectors of a [Metrics], in the order they are registered. *)
Definition registered (m : Metrics) : list MetricVec :=
  [countTotal m; bytesTotal m; upstreamSeconds m; upstreamSecondsHist m;
   responseSeconds m; responseSecondsHist m].

(** *** The ingestor goroutine *)

Record Ingestor : Type := {
  labelValues : list string;
  trace : list MetricOp;
  stdout : list string
}.

Definition intrinsicLabelCount (cfg : NamespaceConfig) : nat :=
  if HasRouteMatchers cfg then S 2 else 2.

Definition totalLabelCount (cfg : NamespaceConfig) : nat :=
  length (OrderedLabelValues cfg) + intrinsicLabelCount cfg + length (RelabelConfigs cfg).

Definition relabelLabelOffset (cfg : NamespaceConfig) : nat :=
  length (OrderedLabelValues cfg) + intrinsicLabelCount cfg.

(** [for i := range staticLabelValues { labelValues[i+intrinsicLabelCount] = staticLabelValues[i] }],
    from index [i] on. *)
Fixpoint fill_static (vals : list string) (i intrinsic : nat) (lv : list string)
  : outcome (list string) :=
  match vals with
  | [] => Returns lv
  | v :: rest =>
      lv' ← set_index lv (i + intrinsic) v;
      fill_static rest (S i) intrinsic lv'
  end.

(** The set-up before the loop over the lines. *)
Definition start (cfg : NamespaceConfig) : outcome Ingestor :=
  let staticLabelValues := OrderedLabelValues cfg in
  let lv := make (totalLabelCount cfg) in
  lv ← fill_static staticLabelValues 0 (intrinsicLabelCount cfg) lv;
  Returns {| labelValues := lv; trace := []; stdout := [] |}.

(** [for i := range nsCfg.CompiledRouteRegexps { ... }], from index [i] on. *)
Fixpoint route_loop (cfg : NamespaceConfig) (res : list Regexp) (i : nat)
    (f : list string) (lv : list string) : outcome (list string) :=
  match res with
  | [] => Returns lv
  | re :: rest =>
      path ← index f 1;
      if MatchString re path then
        route ← index (Routes cfg) i;
        set_index lv 2 route
      else route_loop cfg rest (S i) f lv
  end.

(** [for i := range nsCfg.RelabelConfigs { ... }], from index [i] on. *)
Fixpoint relabel_loop (cs : list RelabelConfig) (i offset : nat)
    (entry : gmap string string) (lv : list string) : outcome (list string) :=
  match cs with
  | [] => Returns lv
  | c :: rest =>
      lv' ← match Field entry (SourceValue c) with
             | Some str =>
                 let str :=
                   if WhitelistExists c && negb (bool_decide (str ∈ WhitelistMap c))
                   then "other" else str in
                 set_index lv (i + offset) str
             | None => set_index lv (i + offset) ""
             end;
      relabel_loop rest (S i) offset entry lv'
  end.

(** Lines 209 to 223: the method and the route. *)
Definition request_labels (cfg : NamespaceConfig) (entry : gmap string string)
    (lv : list string) : outcome (list string) :=
  match Field entry "request" with
  | Some request =>
      let f := Split request " "%char in
      f0 ← index f 0;
      lv ← set_index lv 0 f0;
      if HasRouteMatchers cfg then
        lv ← set_index lv 2 "";
        route_loop cfg (CompiledRouteRegexps cfg) 0 f lv
      else Returns lv
  | None => Returns lv
  end.

(** Lines 225 to 227: the status. *)
Definition status_label (entry : gmap string string) (lv : list string)
  : outcome (list string) :=
  match Field entry "status" with
  | Some s => set_index lv 1 s
  | None => Returns lv
  end.

(** Lines 206 to 240: the label values of one parsed entry, written
    into the buffer left by the previous line. *)
Definition resolve_labels (cfg : NamespaceConfig) (entry : gmap string string)
    (lv : list string) : outcome (list string) :=
  lv ← set_index lv 0 "UNKNOWN";
  lv ← set_index lv 1 "0";
  lv ← request_labels cfg entry lv;
  lv ← status_label entry lv;
  relabel_loop (RelabelConfigs cfg) 0 (relabelLabelOffset cfg) entry lv.

(** [vec.WithLabelValues(lvs...)]: the client checks the number of
    values, then each value, and panics when a check fails. *)
Definition WithLabelValues (vec : MetricVec) (lvs : list string) : outcome unit :=
  if decide (length lvs = length (vecLabels vec)) then
    match List.find (fun v => negb (ValidString v)) lvs with
    | Some v => Aborts (InvalidLabelValue v)
    | None => Returns tt
    end
  else Aborts (LabelCardinality (length (vecLabels vec)) (length lvs)).

(** [vec.WithLabelValues(lvs...).Inc()] *)
Definition call_Inc (vec : MetricVec) (lvs : list string) (tr : list MetricOp)
  : outcome (list MetricOp) :=
  _ ← WithLabelValues vec lvs;
  Returns (tr ++ [Inc vec lvs]).

(** [vec.WithLabelValues(lvs...).Add(x)]: a counter cannot decrease. *)
Definition call_Add (vec : MetricVec) (lvs : list string) (x : Float)
    (tr : list MetricOp) : outcome (list MetricOp) :=
  _ ← WithLabelValues vec lvs;
  if negative x then Aborts CounterDecrease else Returns (tr ++ [Add vec lvs x]).

(** [vec.WithLabelValues(lvs...).Observe(x)] *)
Definition call_Observe (vec : MetricVec) (lvs : list string) (x : Float)
    (tr : list MetricOp) : outcome (list MetricOp) :=
  _ ← WithLabelValues vec lvs;
  Returns (tr ++ [Observe vec lvs x]).

(** Lines 242 to 256: the calls on the vectors, appended to the trace. *)
Definition dispatch (metrics : Metrics) (entry : gmap string string)
    (lv : list string) (tr : list MetricOp) : outcome (list MetricOp) :=
  tr ← call_Inc (countTotal metrics) lv tr;
  tr ← match FloatField entry "body_bytes_sent" with
       | Some bytes => call_Add (bytesTotal metrics) lv bytes tr
       | None => Returns tr
       end;
  tr ← match FloatField entry "upstream_response_time" with
       | Some upstreamTime =>
           tr ← call_Observe (upstreamSeconds metrics) lv upstreamTime tr;
           call_Observe (upstreamSecondsHist metrics) lv upstreamTime tr
       | None => Returns tr
       end;
  match FloatField entry "request_time" with
  | Some responseTime =>
      tr ← call_Observe (responseSeconds metrics) lv responseTime tr;
      call_Observe (responseSecondsHist metrics) lv responseTime tr
  | None => Returns tr
  end.

(** The body of [for line := range t.Lines]. *)
Definition process_line (metrics : Metrics) (cfg : NamespaceConfig)
    (st : Ingestor) (line : string) : outcome Ingestor :=
  match ParseString line with
  | ParseErr err =>
      Returns {| labelValues := labelValues st;
                 trace := trace st;
                 stdout := stdout st ++
                   [("error while parsing line '" ++ line ++ "': " ++ err)%string] |}
  | ParseOk entry =>
      lv ← resolve_labels cfg entry (labelValues st);
      tr ← dispatch metrics entry lv (trace st);
      Returns {| labelValues := lv; trace := tr; stdout := stdout st |}
  end.

(** The loop over the lines delivered so far; a panic ends the goroutine
    (and with it the process). *)
Fixpoint ingest (metrics : Metrics) (cfg : NamespaceConfig)
    (st : Ingestor) (lines : list string) : outcome Ingestor :=
  match lines with
  | [] => Returns st
  | line :: rest =>
      st' ← process_line metrics cfg st line;
      ingest metrics cfg st' rest
  end.

(** The inner goroutine on the lines delivered so far. *)
Definition run (cfg : NamespaceConfig) (lines : list string) : outcome Ingestor :=
  st ← start cfg;
  ingest (Init cfg) cfg st lines.

End Exporter.

Arguments FloatField {Float} ParseFloat entry name.
Arguments Inc {Float} vec lvs.
Arguments Add {Float} vec lvs x.
Arguments Observe {Float} vec lvs x.
Arguments labelValues {Float} _.
Arguments trace {Float} _.
Arguments stdout {Float} _.
Arguments Name {Regexp} _.
Arguments SourceFiles {Regexp} _.
Arguments Format {Regexp} _.
Arguments RelabelConfigs {Regexp} _.
Arguments OrderedLabelNames {Regexp} _.
Arguments OrderedLabelValues {Regexp} _.
Arguments Routes {Regexp} _.
Arguments CompiledRouteRegexps {Regexp} _.
Arguments HasRouteMatchers {Regexp} cfg.
Arguments init_labels {Regexp} cfg.
Arguments Init {Regexp} cfg.
Arguments intrinsicLabelCount {Regexp} cfg.
Arguments totalLabelCount {Regexp} cfg.
Arguments relabelLabelOffset {Regexp} cfg.
Arguments start {Regexp} Float cfg.
Arguments route_loop {Regexp} MatchString cfg res i f lv.
Arguments request_labels {Regexp} MatchString cfg entry lv.
Arguments resolve_labels {Regexp} MatchString cfg entry lv.
Arguments call_Inc {Float} vec lvs tr.
Arguments call_Add {Float float64} vec lvs x tr.
Arguments call_Observe {Float} vec lvs x tr.
Arguments dispatch {Float} ParseFloat {float64} metrics entry lv tr.
Arguments process_line {Regexp} MatchString {Float} ParseFloat {float64} ParseString
  metrics cfg st line.
Arguments ingest {Regexp} MatchString {Float} ParseFloat {float64} ParseString
  metrics cfg st lines.
Arguments run {Regexp} MatchString {Float} ParseFloat {float64} ParseString cfg lines.

(** ** A concrete instance, for running the model

    Route patterns of the form [^prefix] are represented by their
    prefix.  Floats are the decimal literals that [strconv.ParseFloat]
    accepts (sign, digits, fraction, exponent), kept exact: [inf], [nan],
    hexadecimal literals and the range error of very large exponents are
    left out.  The parser is the one gonx builds for the format
    [[$request] $status $body_bytes_sent $upstream_response_time $request_time]:
    gonx turns each field into a group that takes every byte up to the
    byte that follows the field in the format, anchors the expression
    at the start of the line only, and gives every line that matches an
    entry with all the fields. *)
Module Demo.

Definition MatchString (re : string) (s : string) : bool := String.prefix re s.

Record decimal : Type := { mantissa : Z; exponent : Z }.

#[global] Instance decimal_float64 : Float64 decimal :=
  {| negative := fun x => (mantissa x <? 0)%Z |}.

Definition is_digit (c : ascii) : bool :=
  (48 <=? nat_of_ascii c) && (nat_of_ascii c <=? 57).

(** The leading digits of [s]: their value after [acc], how many they
    are after [n], and what follows them. *)
Fixpoint digits (s : string) (acc : Z) (n : nat) : Z * nat * string :=
  match s with
  | EmptyString => (acc, n, s)
  | String c rest =>
      if is_digit c
      then digits rest (10 * acc + Z.of_nat (nat_of_ascii c - 48))%Z (S n)
      else (acc, n, s)
  end.

Definition sign (s : string) : bool * string :=
  match s with
  | String "-"%char rest => (true, rest)
  | String "+"%char rest => (false, rest)
  | _ => (false, s)
  end.

(** Nothing, or [e] or [E], a sign and at least one digit, up to the end. *)
Definition exponent_part (s : string) : option Z :=
  match s with
  | EmptyString => Some 0%Z
  | String c rest =>
      if Ascii.eqb c "e" || Ascii.eqb c "E" then
        let '(neg, rest) := sign rest in
        let '(v, n, rest) := digits rest 0 0 in
        match n, rest with
        | S _, EmptyString => Some (if neg then - v else v)%Z
        | _, _ => None
        end
      else None
  end.

Definition ParseFloat (s : string) : option decimal :=
  let '(neg, s) := sign s in
  let '(whole, n, s) := digits s 0 0 in
  let '(m, k, s) :=
    match s with
    | String "."%char rest => digits rest whole 0
    | _ => (whole, 0, s)
    end in
  match n + k with
  | 0 => None
  | S _ =>
      match exponent_part s with
      | Some e => Some {| mantissa := (if neg then - m else m)%Z;
                          exponent := (e - Z.of_nat k)%Z |}
      | None => None
      end
  end.

(** The text before the first [stop] and the text after it. *)
Fixpoint take_until (stop : ascii) (s : string) : option (string * string) :=
  match s with
  | EmptyString => None
  | String c rest =>
      if Ascii.eqb c stop then Some (EmptyString, rest)
      else match take_until stop rest with
           | Some (v, after) => Some (String c v, after)
           | None => None
           end
  end.

(** The text before the first space, all of it when there is none. *)
Fixpoint before_space (s : string) : string :=
  match s with
  | EmptyString => EmptyString
  | String c rest =>
      if Ascii.eqb c " " then EmptyString else String c (before_space rest)
  end.

(** Fields separated by one space each; the last one ends at the next
    space or at the end of the line. *)
Fixpoint space_fields (names : list string) (s : string)
  : option (list (string * string)) :=
  match names with
  | [] => Some []
  | name :: rest =>
      match rest with
      | [] => Some [(name, before_space s)]
      | _ :: _ =>
          match take_until " " s with
          | Some (v, after) =>
              match space_fields rest after with
              | Some kvs => Some ((name, v) :: kvs)
              | None => None
              end
          | None => None
          end
      end
  end.

Definition entry_of (kvs : list (string * string)) : gmap string string :=
  list_to_map kvs.

Definition format : string :=
  "[$request] $status $body_bytes_sent $upstream_response_time $request_time".

Definition expression : string :=
  "^\[(?P<request>[^]]*)\] (?P<status>[^ ]*) (?P<body_bytes_sent>[^ ]*) (?P<upstream_response_time>[^ ]*) (?P<request_time>[^ ]*)".

Definition no_match (line : string) : parsed :=
  ParseErr ("access log line '" ++ line ++ "' does not match given format '"
              ++ expression ++ "'")%string.

Definition ParseString (line : string) : parsed :=
  match line with
  | String "["%char rest =>
      match take_until "]" rest with
      | Some (request, String " "%char rest) =>
          match space_fields ["status"; "body_bytes_sent"; "upstream_response_time";
                              "request_time"] rest with
          | Some kvs => ParseOk (entry_of (("request", request) :: kvs))
          | None => no_match line
          end
      | _ => no_match line
      end
  | _ => no_match line
  end.

(** A well-formed line and its entry. *)
Definition line1 : string := "[GET /api/v1 HTTP/1.1] 200 512 0.5 0.7".

Definition entry1 : gmap string string :=
  entry_of [("request", "GET /api/v1 HTTP/1.1"); ("status", "200");
            ("body_bytes_sent", "512"); ("upstream_response_time", "0.5");
            ("request_time", "0.7")].

(** A line served without an upstream. *)
Definition line_root : string := "[GET / HTTP/1.1] 404 0 - 0.1".

(** A request of one piece, and its entry. *)
Definition line_short : string := "[GET] 400 0 - 0.0".


(** An empty request. *)
Definition line_empty : string := "[] 400 0 - 0.0".

Definition entry_empty : gmap string string :=
  entry_of [("request", ""); ("status", "400"); ("body_bytes_sent", "0");
            ("upstream_response_time", "-"); ("request_time", "0.0")].

(** Two spaces between the method and the path. *)
Definition line_double : string := "[GET  /api/v1 HTTP/1.1] 200 512 0.5 0.7".

Definition entry_double : gmap string string :=
  entry_of [("request", "GET  /api/v1 HTTP/1.1"); ("status", "200");
            ("body_bytes_sent", "512"); ("upstream_response_time", "0.5");
            ("request_time", "0.7")].

(** A negative number of bytes. *)
Definition line_negative : string := "[GET /api/v1 HTTP/1.1] 200 -1 0.5 0.7".

Definition entry_negative : gmap string string :=
  entry_of [("request", "GET /api/v1 HTTP/1.1"); ("status", "200");
            ("body_bytes_sent", "-1"); ("upstream_response_time", "0.5");
            ("request_time", "0.7")].

Definition code_rule : RelabelConfig :=
  {| TargetLabel := "code"; SourceValue := "status";
     WhitelistExists := true; WhitelistMap := {["200"; "404"]} |}.

Definition cfg : NamespaceConfig string :=
  {| Name := "nginx"; SourceFiles := ["access.log"]; Format := format;
     RelabelConfigs := [code_rule];
     OrderedLabelNames := ["app"]; OrderedLabelValues := ["web"];
     Routes := ["^/api"; "^/"]; CompiledRouteRegexps := ["/api"; "/"] |}.

Definition cfg_plain : NamespaceConfig string :=
  {| Name := "nginx"; SourceFiles := ["access.log"]; Format := format;
     RelabelConfigs := []; OrderedLabelNames := []; OrderedLabelValues := [];
     Routes := []; CompiledRouteRegexps := [] |}.

Definition run := run MatchString ParseFloat ParseString.

Definition process_line := process_line MatchString ParseFloat ParseString.

Definition ingest := ingest MatchString ParseFloat ParseString.

(** The state an outcome returned, the empty state for a panic. *)
Definition state_of (o : outcome (Ingestor decimal)) : Ingestor decimal :=
  match o with
  | Returns st => st
  | _ => {| labelValues := []; trace := []; stdout := [] |}
  end.

(** The ingestor before the first line and after one well-formed line. *)
Definition st0 : Ingestor decimal := state_of (start decimal cfg).

Definition st1 : Ingestor decimal := state_of (run cfg [line1]).

End Demo.

(** The same for a format without the request:
    [$status $body_bytes_sent]. *)
Module DemoNoRequest.

Definition format : string := "$status $body_bytes_sent".

Definition expression : string := "^(?P<status>[^ ]*) (?P<body_bytes_sent>[^ ]*)".

Definition ParseString (line : string) : parsed :=
  match Demo.space_fields ["status"; "body_bytes_sent"] line with
  | Some kvs => ParseOk (Demo.entry_of kvs)
  | None =>
      ParseErr ("access log line '" ++ line ++ "' does not match given format '"
                  ++ expression ++ "'")%string
  end.

Definition cfg : NamespaceConfig string :=
  {| Name := "nginx"; SourceFiles := ["access.log"]; Format := format;
     RelabelConfigs := [Demo.code_rule];
     OrderedLabelNames := ["app"]; OrderedLabelValues := ["web"];
     Routes := ["^/api"; "^/"]; CompiledRouteRegexps := ["/api"; "/"] |}.

Definition run := run Demo.MatchString Demo.ParseFloat ParseString.

Definition process_line := process_line Demo.MatchString Demo.ParseFloat ParseString.


(** The ingestor after one line. *)
Definition st1 : Ingestor Demo.decimal := Demo.state_of (run cfg ["200 512"]).

End DemoNoRequest.

(** ** Properties *)

(** The label values an operation was called with, and its vector. *)
Definition op_labels {Float : Type} (op : MetricOp Float) : list string :=
  match op with
  | Inc _ lvs | Add _ lvs _ | Observe _ lvs _ => lvs
  end.

Definition op_vec {Float : Type} (op : MetricOp Float) : MetricVec :=
  match op with
  | Inc vec _ | Add vec _ _ | Observe vec _ _ => vec
  end.

(** [lv] is the label vector of the metric updates made by the line that
    took the ingestor from [st] to [st']. *)
Definition line_labels {Float : Type} (st st' : Ingestor Float) (lv : list string) : Prop :=
  labelValues st' = lv ∧
  ∃ new, trace st' = trace st ++ new ∧ new ≠ [] ∧ Forall (λ op, op_labels op = lv) new.

(** The value a relabel rule resolves to on an entry. *)
Definition relabel_value (c : RelabelConfig) (entry : gmap string string) : string :=
  match Field entry (SourceValue c) with
  | Some str =>
      if WhitelistExists c && negb (bool_decide (str ∈ WhitelistMap c)) then "other" else str
  | None => ""
  end.

(** A request is malformed when it has fewer than two pieces. *)
Definition malformed (request : string) : Prop :=
  length (Split request " "%char) < 2.

(** No byte of [s] is the separator. *)
Fixpoint free_of (sep : ascii) (s : string) : Prop :=
  match s with
  | EmptyString => True
  | String c rest => c ≠ sep ∧ free_of sep rest
  end.

(** What keeps the request block from panicking. *)
Definition request_safe {Regexp : Type} (cfg : NamespaceConfig Regexp)
    (entry : gmap string string) : Prop :=
  match entry !! "request" with
  | None => True
  | Some request =>
      HasRouteMatchers cfg = false ∨ CompiledRouteRegexps cfg = [] ∨
      (is_Some (Split request " " !! 1) ∧
       length (CompiledRouteRegexps cfg) ≤ length (Routes cfg))
  end.

(** A panic, if any, comes from a read. *)
Definition stores_in_range {A : Type} (m : outcome A) : Prop :=
  match m with
  | Panics Store _ _ => False
  | _ => True
  end.

(** A panic of the client, if any, is not about the number of label
    values. *)
Definition arity_respected {A : Type} (m : outcome A) : Prop :=
  match m with
  | Aborts (LabelCardinality _ _) => False
  | _ => True
  end.

(** The computation does not panic inside the client. *)
Definition client_free {A : Type} (m : outcome A) : Prop :=
  match m with
  | Aborts _ => False
  | _ => True
  end.

(** The client accepts the label values for a vector with these label
    names. *)
Definition accepts (labels : list string) (lv : list string) : Prop :=
  length lv = length labels ∧ Forall (λ v, ValidString v = true) lv.

(** The calls of lines 242 to 256, in order, when the client accepts
    them all. *)
Definition calls {Float : Type} (ParseFloat : string → option Float)
    (metrics : Metrics) (entry : gmap string string) (lv : list string)
  : list (MetricOp Float) :=
  [Inc (countTotal metrics) lv]
  ++ match FloatField ParseFloat entry "body_bytes_sent" with
     | Some bytes => [Add (bytesTotal metrics) lv bytes]
     | None => []
     end
  ++ match FloatField ParseFloat entry "upstream_response_time" with
     | Some upstreamTime =>
         [Observe (upstreamSeconds metrics) lv upstreamTime;
          Observe (upstreamSecondsHist metrics) lv upstreamTime]
     | None => []
     end
  ++ match FloatField ParseFloat entry "request_time" with
     | Some responseTime =>
         [Observe (responseSeconds metrics) lv responseTime;
          Observe (responseSecondsHist metrics) lv responseTime]
     | None => []
     end.

(** The number of bytes of the entry, when there is one, is not
    negative. *)
Definition bytes_not_negative {Float : Type} `{!Float64 Float}
    (ParseFloat : string → option Float) (entry : gmap string string) : Prop :=
  ∀ bytes, FloatField ParseFloat entry "body_bytes_sent" = Some bytes →
           negative bytes = false.


(** Following the words of the specification: the whitespace-delimited
    tokens of a text, as [strings.Fields] gives them. *)
Definition is_space (c : ascii) : bool :=
  let b := nat_of_ascii c in
  (b =? 32) || ((9 <=? b) && (b <=? 13)).

Fixpoint whitespace_tokens (s : string) : list string :=
  match s with
  | EmptyString => []
  | String c rest =>
      if is_space c then whitespace_tokens rest
      else match rest with
           | EmptyString => [String c EmptyString]
           | String c' _ =>
               if is_space c' then String c EmptyString :: whitespace_tokens rest
               else match whitespace_tokens rest with
                    | token :: tokens => String c token :: tokens
                    | [] => [String c EmptyString]
                    end
           end
  end.

(** *** Vocabulary for the properties of the loop *)

(** The pieces written one after the other, with the separator between
    two neighbours. *)
Fixpoint joined (pieces : list string) (sep : ascii) : string :=
  match pieces with
  | [] => EmptyString
  | piece :: rest =>
      match rest with
      | [] => piece
      | _ :: _ => (piece ++ String sep (joined rest sep))%string
      end
  end.

(** How often the separator occurs in [s]. *)
Fixpoint occurrences (sep : ascii) (s : string) : nat :=
  match s with
  | EmptyString => 0
  | String c rest => (if Ascii.eqb c sep then 1 else 0) + occurrences sep rest
  end.

(** How many elements of a list pass a test. *)
Fixpoint count {A : Type} (test : A → bool) (l : list A) : nat :=
  match l with
  | [] => 0
  | x :: rest => (if test x then 1 else 0) + count test rest
  end.

Definition is_Inc {Float : Type} (op : MetricOp Float) : bool :=
  match op with Inc _ _ => true | _ => false end.

Definition is_Add {Float : Type} (op : MetricOp Float) : bool :=
  match op with Add _ _ _ => true | _ => false end.

Definition is_Observe {Float : Type} (op : MetricOp Float) : bool :=
  match op with Observe _ _ _ => true | _ => false end.

(** The parser accepts the line. *)
Definition accepted (ParseString : string → parsed) (line : string) : bool :=
  match ParseString line with ParseOk _ => true | ParseErr _ => false end.

(** The parser accepts the line and the field [name] of its entry
    parses as a number. *)
Definition numeric {Float : Type} (ParseFloat : string → option Float)
    (ParseString : string → parsed) (name : string) (line : string) : bool :=
  match ParseString line with
  | ParseOk entry =>
      match FloatField ParseFloat entry name with Some _ => true | None => false end
  | ParseErr _ => false
  end.

(** The messages printed for the lines the parser rejects, in order. *)
Fixpoint rejections (ParseString : string → parsed) (lines : list string) : list string :=
  match lines with
  | [] => []
  | line :: rest =>
      match ParseString line with
      | ParseOk _ => rejections ParseString rest
      | ParseErr err =>
          ("error while parsing line '" ++ line ++ "': " ++ err)%string
            :: rejections ParseString rest
      end
  end.

(** The route slot holds the empty string or one of the configured routes. *)
Definition route_bounded {Regexp : Type} (cfg : NamespaceConfig Regexp)
    (lv : list string) : Prop :=
  lv !! 2 = Some "" ∨ ∃ route, route ∈ Routes cfg ∧ lv !! 2 = Some route.

(** The slot of every relabel rule that has a whitelist holds a member
    of the whitelist, "other" or the empty string. *)
Definition whitelist_bounded {Regexp : Type} (cfg : NamespaceConfig Regexp)
    (lv : list string) : Prop :=
  ∀ i c, RelabelConfigs cfg !! i = Some c → WhitelistExists c = true →
    ∃ v, lv !! (i + relabelLabelOffset cfg) = Some v ∧
         (v ∈ WhitelistMap c ∨ v = "other" ∨ v = "").

(** The namespace and the name a vector is registered under. *)
Definition vec_id (vec : MetricVec) : string * string :=
  (vecNamespace vec, vecName vec).

(** ** The start of the process: [main] up to the HTTP server

    The loaders of package config, the Consul registrator of package
    discovery and [http.ListenAndServe] are outside [main.go]: they are
    variables of the section.  What [main] itself prints and starts is
    recorded, in order, as events; the goroutines it starts run the
    ingestors modelled above. *)
Module Startup.

Record StartupFlags : Type := {
  ConfigFile : string;
  ListenPort : Z;
  Format : string;
  Namespace : string;
  Filenames : list string;
  EnableExperimentalFeatures : bool
}.

Record ListenConfig : Type := { Port : Z; Address : string }.

Record ConsulConfig : Type := { Enable : bool }.

(** How the goroutine of [main] itself ends: a panic with an error,
    [os.Exit] or the return of [main] with a status, or the HTTP server
    serving for good.  The goroutines that [main] starts run beside it
    and can end the process on their own: the one waiting for a signal
    calls [os.Exit(0)] after it unregistered from Consul, and a panic in
    an ingestor ends the process too.  Those are not endings of [main];
    the goroutines are recorded as events when they are started, and
    what they do afterwards, like what the tail library logs, is not
    part of this model. *)
Inductive ending : Type :=
| Panic (err : string)
| Exit (code : Z)
| Serving.

(** The line feed. *)
Definition nl : string := String "010"%char EmptyString.

Section Main.

Variable Regexp : Type.

(** The fields of [config.Config] that [main] reads. *)
Record Config : Type := {
  Listen : ListenConfig;
  Consul : ConsulConfig;
  Namespaces : list (NamespaceConfig Regexp)
}.

(** Each loader gives the configuration it filled in, or an error. *)
Variable LoadConfigFromFile : Config → string → Config + string.
Variable LoadConfigFromFlags : Config → StartupFlags → Config + string.
Variable StabilityWarnings : Config → option string.

(** The text the verb [%s] prints for a configuration. *)
Variable show : Config → string.

Variable ConsulRegistrator : Type.
Variable NewConsulRegistrator : Config → ConsulRegistrator + string.
Variable RegisterConsul : ConsulRegistrator → option string.

(** [http.ListenAndServe] returns an error, or never returns. *)
Variable ListenAndServe : string → option string.

Inductive event : Type :=
| Stdout (text : string)
| Stderr (text : string)
| CallRegisterConsul (registrator : ConsulRegistrator)
| GoUnregisterOnSignal (registrator : ConsulRegistrator)
| GoNamespace (ns : NamespaceConfig Regexp)
| HandleMetrics.

(** [var cfg = config.Config{Listen: ...}] *)
Definition initial_config : Config :=
  {| Listen := {| Port := 4040; Address := "0.0.0.0" |};
     Consul := {| Enable := false |};
     Namespaces := [] |}.

(** Lines 124 to 131: the configuration comes from the file when one is
    named, from the flags otherwise. *)
Definition load (opts : StartupFlags) : list event * (Config + string) :=
  if decide (ConfigFile opts ≠ "") then
    ([Stdout ("loading configuration file " ++ ConfigFile opts ++ nl)%string],
     LoadConfigFromFile initial_config (ConfigFile opts))
  else ([], LoadConfigFromFlags initial_config opts).

(** Lines 164 to 267: one goroutine for each namespace, then the server. *)
Definition serve (cfg : Config) (events : list event) : list event * ending :=
  let events :=
    events ++
    mjoin ((λ ns, [Stdout ("starting listener for namespace " ++ Name ns ++ nl)%string;
                   GoNamespace ns]) <$> Namespaces cfg) in
  let listenAddr := (Address (Listen cfg) ++ ":" ++ pretty (Port (Listen cfg)))%string in
  let events :=
    events ++ [Stdout ("running HTTP server on address " ++ listenAddr ++ nl)%string;
               HandleMetrics] in
  match ListenAndServe listenAddr with
  | Some _ => (events, Exit 0)
  | None => (events, Serving)
  end.

(** Lines 142 to 162: the registration in Consul, when it is enabled.
    The goroutine of lines 156 to 161 is started ([GoUnregisterOnSignal])
    and left waiting for its signal. *)
Definition register (cfg : Config) (events : list event) : list event * ending :=
  if Enable (Consul cfg) then
    match NewConsulRegistrator cfg with
    | inr err => (events, Panic err)
    | inl registrator =>
        let events :=
          events ++ [Stdout ("registering service in Consul" ++ nl)%string;
                     CallRegisterConsul registrator] in
        match RegisterConsul registrator with
        | Some err => (events, Panic err)
        | None => serve cfg (events ++ [GoUnregisterOnSignal registrator])
        end
    end
  else serve cfg events.

Definition main (opts : StartupFlags) : list event * ending :=
  let '(events, loaded) := load opts in
  match loaded with
  | inr err => (events, Panic err)
  | inl cfg =>
      let events := events ++ [Stdout ("using configuration " ++ show cfg ++ nl)%string] in
      match StabilityWarnings cfg with
      | Some stabilityError =>
          if negb (EnableExperimentalFeatures opts) then
            (events ++
               [Stderr ("Your configuration file contains an option that is explicitly labeled as experimental feature:"
                          ++ nl ++ nl ++ "  " ++ stabilityError ++ nl ++ nl)%string;
                Stderr ("Use the -enable-experimental flag or the enable_experimental option to enable these features. Use them at your own peril."
                          ++ nl)%string],
             Exit 1)
          else register cfg events
      | None => register cfg events
      end
  end.

(** The event reports on standard error, calls Consul, or starts a
    goroutine. *)
Definition is_Stderr (e : event) : Prop :=
  match e with Stderr _ => True | _ => False end.

Definition is_consul (e : event) : Prop :=
  match e with CallRegisterConsul _ | GoUnregisterOnSignal _ => True | _ => False end.

Definition is_namespace (e : event) : Prop :=
  match e with GoNamespace _ => True | _ => False end.

(** The namespaces for which a goroutine was started, in order. *)
Definition started (events : list event) : list (NamespaceConfig Regexp) :=
  omap (λ e, match e with GoNamespace ns => Some ns | _ => None end) events.

End Main.

Arguments Listen {Regexp} _.
Arguments Consul {Regexp} _.
Arguments Namespaces {Regexp} _.
Arguments Stdout {Regexp ConsulRegistrator} text.
Arguments Stderr {Regexp ConsulRegistrator} text.
Arguments CallRegisterConsul {Regexp ConsulRegistrator} registrator.
Arguments GoUnregisterOnSignal {Regexp ConsulRegistrator} registrator.
Arguments GoNamespace {Regexp ConsulRegistrator} ns.
Arguments HandleMetrics {Regexp ConsulRegistrator}.

End Startup.

(** A concrete start: a configuration file that enables Consul and has
    one namespace, and a port that is already in use. *)
Module StartupDemo.

Definition cfg_file : Startup.Config string :=
  {| Startup.Listen := {| Startup.Port := 4040; Startup.Address := "0.0.0.0" |};
     Startup.Consul := {| Startup.Enable := true |};
     Startup.Namespaces := [Demo.cfg] |}.

Definition LoadConfigFromFile (cfg : Startup.Config string) (path : string)
  : Startup.Config string + string :=
  if decide (path = "exporter.hcl") then inl cfg_file
  else inr "open: no such file or directory".

Definition LoadConfigFromFlags (cfg : Startup.Config string) (opts : Startup.StartupFlags)
  : Startup.Config string + string :=
  inl {| Startup.Listen :=
           {| Startup.Port := Startup.ListenPort opts;
              Startup.Address := Startup.Address (Startup.Listen cfg) |};
         Startup.Consul := Startup.Consul cfg;
         Startup.Namespaces := [Demo.cfg_plain] |}.

Definition StabilityWarnings (cfg : Startup.Config string) : option string := None.

Definition show (cfg : Startup.Config string) : string := "{...}".

Definition NewConsulRegistrator (cfg : Startup.Config string) : unit + string := inl tt.

Definition RegisterConsul (registrator : unit) : option string := None.

Definition ListenAndServe (addr : string) : option string :=
  if decide (addr = "0.0.0.0:4040") then Some "listen tcp 0.0.0.0:4040: bind: address already in use"
  else None.

Definition opts : Startup.StartupFlags :=
  {| Startup.ConfigFile := "exporter.hcl"; Startup.ListenPort := 4040;
     Startup.Format := "$request $status $body_bytes_sent";
     Startup.Namespace := "nginx"; Startup.Filenames := [];
     Startup.EnableExperimentalFeatures := false |}.

Definition load := Startup.load string LoadConfigFromFile LoadConfigFromFlags unit.

Definition main :=
  Startup.main string LoadConfigFromFile LoadConfigFromFlags StabilityWarnings show
    unit NewConsulRegistrator RegisterConsul ListenAndServe.

End StartupDemo.

(** Three lines, the second of which the parser rejects, the state
    after them, and a second namespace. *)
Module DemoMore.

Definition lines3 : list string := [Demo.line1; "garbage"; Demo.line_root].

Definition st3 : Ingestor Demo.decimal := Demo.state_of (Demo.run Demo.cfg lines3).

Definition cfg_api : NamespaceConfig string :=
  {| Name := "api"; SourceFiles := ["api.log"]; Format := Demo.format;
     RelabelConfigs := []; OrderedLabelNames := ["app"; "tier"];
     OrderedLabelValues := ["api"];
     Routes := []; CompiledRouteRegexps := [] |}.

End DemoMore.

Lemma bind_Returns {A B : Type} (m : outcome A) (k : A → outcome B) (b : B) :
  m ≫= k = Returns b ↔ ∃ a, m = Returns a ∧ k a = Returns b.
Proof.
  unfold mbind, outcome_bind. destruct m as [a|acc i n|why]; simpl; split.
  - intros H. by exists a.
  - by intros (a' & [= <-] & H).
  - discriminate.
  - by intros (a' & ? & _).
  - discriminate.
  - by intros (a' & ? & _).
Qed.

Lemma set_index_Returns (s : list string) i v s' :
  set_index s i v = Returns s' ↔ i < length s ∧ s' = <[i:=v]> s.
Proof.
  unfold set_index. case_decide; split.
  - by intros [= <-].
  - by intros [_ ->].
  - discriminate.
  - intros [? _]. lia.
Qed.

Lemma set_index_lt (s : list string) i v :
  i < length s → set_index s i v = Returns (<[i:=v]> s).
Proof. intros H. by apply set_index_Returns. Qed.

Lemma index_Returns (s : list string) i v :
  index s i = Returns v ↔ s !! i = Some v.
Proof.
  unfold index. destruct (s !! i); split; intros H; by simplify_eq.
Qed.

Lemma index_stores_in_range (s : list string) i : stores_in_range (index s i).
Proof. unfold index. by destruct (s !! i). Qed.

Lemma bind_stores_in_range {A B : Type} (m : outcome A) (k : A → outcome B) :
  stores_in_range m → (∀ a, m = Returns a → stores_in_range (k a)) →
  stores_in_range (m ≫= k).
Proof.
  unfold mbind, outcome_bind. destruct m as [a|acc i n|why]; simpl; intros Hm Hk.
  - by apply Hk.
  - done.
  - done.
Qed.

Lemma bind_arity_respected {A B : Type} (m : outcome A) (k : A → outcome B) :
  arity_respected m → (∀ a, m = Returns a → arity_respected (k a)) →
  arity_respected (m ≫= k).
Proof.
  unfold mbind, outcome_bind. destruct m as [a|acc i n|why]; simpl; intros Hm Hk.
  - by apply Hk.
  - done.
  - done.
Qed.

Lemma set_index_stores_in_range (s : list string) i v :
  i < length s → stores_in_range (set_index s i v).
Proof. intros H. by rewrite set_index_lt. Qed.

(** *** [strings.Split] *)

Lemma Split_nonempty s sep : Split s sep ≠ [].
Proof.
  destruct s as [|c s]; simpl; [done|].
  destruct (Ascii.eqb c sep); [done|]. by destruct (Split s sep).
Qed.

Lemma Split_lookup_0 s sep : is_Some (Split s sep !! 0).
Proof.
  pose proof (Split_nonempty s sep). destruct (Split s sep); [done|]. by eexists.
Qed.

(** The first piece is the text before the first separator, the whole
    string when it has none. *)
Lemma Split_head s sep :
  ∃ tok pieces, Split s sep = tok :: pieces ∧ free_of sep tok ∧
    ((pieces = [] ∧ s = tok) ∨
     (∃ rest, s = (tok ++ String sep rest)%string ∧ pieces = Split rest sep)).
Proof.
  induction s as [|c s IH]; simpl.
  - exists EmptyString, []. split_and!; [done..|]. by left.
  - destruct (Ascii.eqb_spec c sep) as [->|Hne].
    + exists EmptyString, (Split s sep). split_and!; [done..|]. right. by exists s.
    + destruct IH as (tok & pieces & -> & Hfree & Hs).
      exists (String c tok), pieces. split_and!; [done..|].
      destruct Hs as [[-> ->]|(rest & -> & ->)]; [by left|].
      right. by exists rest.
Qed.

(** One piece only exactly when the separator does not occur. *)
Lemma Split_single s sep : length (Split s sep) < 2 ↔ free_of sep s.
Proof.
  induction s as [|c s IH]; simpl; [split; [done|lia]|].
  destruct (Ascii.eqb_spec c sep) as [->|Hne].
  - pose proof (Split_nonempty s sep). destruct (Split s sep); [done|].
    simpl. split; [lia|]. by intros [? _].
  - pose proof (Split_nonempty s sep). destruct (Split s sep) as [|p ps]; [done|].
    simpl in *. rewrite IH. split; [by intros ?|by intros [_ ?]].
Qed.

Section Properties.

Context {Regexp : Type} (MatchString : Regexp → string → bool).
Context {Float : Type} (ParseFloat : string → option Float) `{!Float64 Float}.
Context (ParseString : string → parsed).

Implicit Types (cfg : NamespaceConfig Regexp) (lv : list string).
Implicit Types (entry : gmap string string) (st : Ingestor Float).

(** *** The layout of the label vector *)

Lemma relabel_targets_app (cs : list RelabelConfig) (labels : list string) :
  relabel_targets cs labels = labels ++ map TargetLabel cs.
Proof.
  revert labels. induction cs as [|c cs IH]; intros labels; simpl.
  - by rewrite app_nil_r.
  - unfold relabel_targets in IH. rewrite IH. by rewrite <- app_assoc.
Qed.

Lemma init_labels_eq cfg :
  init_labels cfg =
    ["method"; "status"] ++ (if HasRouteMatchers cfg then ["request_uri"] else [])
      ++ OrderedLabelNames cfg ++ map TargetLabel (RelabelConfigs cfg).
Proof.
  unfold init_labels. rewrite relabel_targets_app.
  destruct (HasRouteMatchers cfg); simpl; by rewrite <- ?app_assoc.
Qed.

Lemma HasRouteMatchers_spec cfg : HasRouteMatchers cfg = true ↔ Routes cfg ≠ [].
Proof.
  unfold HasRouteMatchers. destruct (Routes cfg); simpl; split; try done.
Qed.

Lemma intrinsic_ge_2 cfg : 2 ≤ intrinsicLabelCount cfg.
Proof. unfold intrinsicLabelCount. destruct (HasRouteMatchers cfg); lia. Qed.

Lemma intrinsic_routes cfg : HasRouteMatchers cfg = true → intrinsicLabelCount cfg = 3.
Proof. unfold intrinsicLabelCount. by intros ->. Qed.

Lemma length_init_labels cfg :
  length (OrderedLabelNames cfg) = length (OrderedLabelValues cfg) →
  length (init_labels cfg) = totalLabelCount cfg.
Proof.
  intros Hlen. rewrite init_labels_eq. unfold totalLabelCount, intrinsicLabelCount.
  rewrite !length_app, length_map, Hlen.
  destruct (HasRouteMatchers cfg); simpl; lia.
Qed.

(** *** The static fill *)

Lemma fill_static_spec (vals : list string) : ∀ i k lv,
  i + k + length vals ≤ length lv →
  ∃ lv', fill_static vals i k lv = Returns lv' ∧ length lv' = length lv ∧
    (∀ j v, vals !! j = Some v → lv' !! (i + j + k) = Some v) ∧
    (∀ p, p < i + k ∨ i + k + length vals ≤ p → lv' !! p = lv !! p).
Proof.
  induction vals as [|v vals IH]; intros i k lv Hle; simpl in *.
  - exists lv. split_and!; [done..|by intros j v' ?|done].
  - rewrite set_index_lt by lia. simpl.
    destruct (IH (S i) k (<[i + k:=v]> lv)) as (lv' & -> & Hlen & Hget & Hframe).
    { rewrite length_insert. lia. }
    rewrite length_insert in Hlen.
    exists lv'. split_and!; [done..| |].
    + intros [|j] v' Hj; simpl in Hj.
      * injection Hj as <-. rewrite Hframe by lia.
        replace (i + 0 + k) with (i + k) by lia.
        apply list_lookup_insert_eq. lia.
      * replace (i + S j + k) with (S i + j + k) by lia. by apply Hget.
    + intros p Hp. rewrite Hframe by lia.
      apply list_lookup_insert_ne. lia.
Qed.

Lemma start_spec cfg :
  ∃ lv, start Float cfg = Returns {| labelValues := lv; trace := []; stdout := [] |} ∧
    length lv = totalLabelCount cfg ∧
    (∀ j v, OrderedLabelValues cfg !! j = Some v →
            lv !! (j + intrinsicLabelCount cfg) = Some v).
Proof.
  unfold start.
  destruct (fill_static_spec (OrderedLabelValues cfg) 0 (intrinsicLabelCount cfg)
              (make (totalLabelCount cfg))) as (lv & -> & Hlen & Hget & _).
  { unfold make. rewrite length_replicate. unfold totalLabelCount. lia. }
  exists lv. split_and!; [done| |].
  - rewrite Hlen. unfold make. by rewrite length_replicate.
  - intros j v Hj. by apply (Hget j v).
Qed.

(** *** The route loop *)

Lemma route_loop_inv cfg (res : list Regexp) : ∀ i (f : list string) lv lv',
  route_loop MatchString cfg res i f lv = Returns lv' →
  (res = [] ∧ lv' = lv) ∨
  ∃ path, f !! 1 = Some path ∧
    (((∀ re, re ∈ res → MatchString re path = false) ∧ lv' = lv) ∨
     (∃ k re route, res !! k = Some re ∧ MatchString re path = true ∧
        (∀ j re', j < k → res !! j = Some re' → MatchString re' path = false) ∧
        Routes cfg !! (i + k) = Some route ∧ 2 < length lv ∧ lv' = <[2:=route]> lv)).
Proof.
  induction res as [|re res IH]; intros i f lv lv' Hrun; simpl in Hrun.
  - left. by injection Hrun as <-.
  - right. apply bind_Returns in Hrun as (path & Hpath%index_Returns & Hrun).
    exists path. split; [done|].
    destruct (MatchString re path) eqn:Hm.
    + right. apply bind_Returns in Hrun as (route & Hroute%index_Returns & Hset).
      apply set_index_Returns in Hset as [Hlt ->].
      exists 0, re, route. split_and!; [done..|lia| |done|done].
      by replace (i + 0) with i by lia.
    + destruct (IH _ _ _ _ Hrun) as [[-> ->]|(path' & Hpath' & Hcase)].
      * left. split; [|done]. intros re' ->%list_elem_of_singleton. done.
      * assert (path' = path) as -> by congruence.
        destruct Hcase as [[Hnone ->]|(k & re' & route & Hk & Hmk & Hfirst & Hroute & Hlt & ->)].
        -- left. split; [|done]. intros re' [->|Hin]%elem_of_cons; [done|by apply Hnone].
        -- right. exists (S k), re', route. split_and!; [done..| | |done|done].
           ++ intros [|j] re'' Hj Hre''; simpl in Hre''; [by simplify_eq|].
              apply (Hfirst j); [lia|done].
           ++ by replace (i + S k) with (S i + k) by lia.
Qed.

Lemma route_loop_returns cfg (res : list Regexp) : ∀ i (f : list string) lv path,
  f !! 1 = Some path → 2 < length lv → i + length res ≤ length (Routes cfg) →
  ∃ lv', route_loop MatchString cfg res i f lv = Returns lv'.
Proof.
  induction res as [|re res IH]; intros i f lv path Hpath Hlv Hroutes; simpl in *.
  - by eexists.
  - rewrite (proj2 (index_Returns f 1 path) Hpath). simpl.
    destruct (MatchString re path).
    + destruct (lookup_lt_is_Some_2 (Routes cfg) i) as [route Hroute]; [lia|].
      rewrite (proj2 (index_Returns _ _ _) Hroute). simpl.
      rewrite set_index_lt by done. by eexists.
    + apply (IH (S i) f lv path); [done..|lia].
Qed.


Lemma route_loop_stores cfg (res : list Regexp) : ∀ i (f : list string) lv,
  2 < length lv → stores_in_range (route_loop MatchString cfg res i f lv).
Proof.
  induction res as [|re res IH]; intros i f lv Hlv; simpl; [done|].
  apply bind_stores_in_range; [apply index_stores_in_range|].
  intros path _. destruct (MatchString re path); [|by apply IH].
  apply bind_stores_in_range; [apply index_stores_in_range|].
  intros route _. by apply set_index_stores_in_range.
Qed.

(** *** The relabel loop *)

Lemma relabel_loop_unfold (c : RelabelConfig) (cs : list RelabelConfig) i offset entry lv :
  relabel_loop (c :: cs) i offset entry lv =
    set_index lv (i + offset) (relabel_value c entry) ≫=
      relabel_loop cs (S i) offset entry.
Proof.
  simpl. unfold relabel_value. by destruct (Field entry (SourceValue c)).
Qed.

Lemma relabel_loop_inv (cs : list RelabelConfig) : ∀ i offset entry lv lv',
  relabel_loop cs i offset entry lv = Returns lv' →
  length lv' = length lv ∧
  (∀ j c, cs !! j = Some c → lv' !! (i + j + offset) = Some (relabel_value c entry)) ∧
  (∀ p, p < i + offset → lv' !! p = lv !! p).
Proof.
  induction cs as [|c cs IH]; intros i offset entry lv lv' Hrun.
  - injection Hrun as <-. split_and!; [done|by intros j c ?|done].
  - rewrite relabel_loop_unfold in Hrun.
    apply bind_Returns in Hrun as (lv1 & [Hlt ->]%set_index_Returns & Hrun).
    apply IH in Hrun as (Hlen & Hget & Hframe).
    rewrite length_insert in Hlen. split_and!; [done| |].
    + intros [|j] c' Hj; simpl in Hj.
      * injection Hj as <-. rewrite Hframe by lia.
        replace (i + 0 + offset) with (i + offset) by lia.
        by apply list_lookup_insert_eq.
      * replace (i + S j + offset) with (S i + j + offset) by lia. by apply Hget.
    + intros p Hp. rewrite Hframe by lia. apply list_lookup_insert_ne. lia.
Qed.

Lemma relabel_loop_returns (cs : list RelabelConfig) : ∀ i offset entry lv,
  i + offset + length cs ≤ length lv →
  ∃ lv', relabel_loop cs i offset entry lv = Returns lv'.
Proof.
  induction cs as [|c cs IH]; intros i offset entry lv Hle; simpl in Hle.
  - by eexists.
  - rewrite relabel_loop_unfold, set_index_lt by lia.
    apply IH. rewrite length_insert. lia.
Qed.

(** *** Method, route and status *)

Lemma request_labels_absent cfg entry lv :
  entry !! "request" = None → request_labels MatchString cfg entry lv = Returns lv.
Proof. unfold request_labels, Field. by intros ->. Qed.

(** The request block, when the field is present and the block returns:
    the method is stored, then, with route rules, the route slot is
    cleared and the loop runs. *)
Lemma request_labels_present cfg entry lv lv' request :
  entry !! "request" = Some request →
  request_labels MatchString cfg entry lv = Returns lv' →
  ∃ tok, Split request " " !! 0 = Some tok ∧ 0 < length lv ∧
    if HasRouteMatchers cfg then
      2 < length lv ∧
      route_loop MatchString cfg (CompiledRouteRegexps cfg) 0 (Split request " ")
        (<[2:=""]> (<[0:=tok]> lv)) = Returns lv'
    else lv' = <[0:=tok]> lv.
Proof.
  unfold request_labels, Field. intros -> Hrun.
  apply bind_Returns in Hrun as (tok & Htok%index_Returns & Hrun).
  apply bind_Returns in Hrun as (lv1 & [Hlt ->]%set_index_Returns & Hrun).
  exists tok. split_and!; [done..|].
  destruct (HasRouteMatchers cfg).
  - apply bind_Returns in Hrun as (lv2 & [Hlt2 ->]%set_index_Returns & Hrun).
    rewrite length_insert in Hlt2. done.
  - by injection Hrun as <-.
Qed.

Lemma request_labels_inv cfg entry lv lv' :
  request_labels MatchString cfg entry lv = Returns lv' →
  length lv' = length lv ∧
  (∀ p, p ≠ 0 → p ≠ 2 ∨ HasRouteMatchers cfg = false → lv' !! p = lv !! p) ∧
  (entry !! "request" = None → lv' = lv) ∧
  (∀ request, entry !! "request" = Some request →
     0 < length lv ∧ lv' !! 0 = Split request " " !! 0).
Proof.
  intros Hrun. destruct (entry !! "request") as [request|] eqn:Hreq.
  - destruct (request_labels_present _ _ _ _ _ Hreq Hrun) as (tok & Htok & Hlt & Hcase).
    destruct (HasRouteMatchers cfg) eqn:Hroutes.
    + destruct Hcase as [Hlt2 Hloop].
      assert (length lv' = length lv ∧
              ∀ p, p ≠ 2 → lv' !! p = <[0:=tok]> lv !! p) as [Hlen Hother].
      { apply route_loop_inv in Hloop
          as [[_ ->]|(path & _ & [[_ ->]|(k & re & route & _ & _ & _ & _ & _ & ->)])];
          rewrite ?length_insert; (split; [done|]); intros p Hp;
          by rewrite ?(list_lookup_insert_ne _ 2 p) by done. }
      split_and!; [done| |done|].
      * intros p Hp0 [Hp2|?]; [|done]. rewrite Hother by done.
        by apply list_lookup_insert_ne.
      * intros ? [= <-]. split; [done|]. rewrite Hother by done.
        rewrite Htok. by apply list_lookup_insert_eq.
    + subst lv'. rewrite length_insert. split_and!; [done| |done|].
      * intros p Hp0 _. by apply list_lookup_insert_ne.
      * intros ? [= <-]. split; [done|]. rewrite Htok. by apply list_lookup_insert_eq.
  - rewrite request_labels_absent in Hrun by done. injection Hrun as <-.
    split_and!; done.
Qed.

Lemma status_label_inv entry lv lv' :
  status_label entry lv = Returns lv' →
  length lv' = length lv ∧
  (∀ p, p ≠ 1 → lv' !! p = lv !! p) ∧
  match entry !! "status" with
  | Some s => lv' !! 1 = Some s
  | None => lv' = lv
  end.
Proof.
  unfold status_label, Field. destruct (entry !! "status") as [s|].
  - intros [Hlt ->]%set_index_Returns. rewrite length_insert. split_and!; [done| |].
    + intros p Hp. by apply list_lookup_insert_ne.
    + by apply list_lookup_insert_eq.
  - by intros [= <-].
Qed.

(** *** The label values of one entry *)

Lemma offset_ge_intrinsic cfg : intrinsicLabelCount cfg ≤ relabelLabelOffset cfg.
Proof. unfold relabelLabelOffset. lia. Qed.

Lemma total_eq cfg :
  totalLabelCount cfg = relabelLabelOffset cfg + length (RelabelConfigs cfg).
Proof. done. Qed.

Lemma resolve_labels_inv cfg entry lv lv' :
  resolve_labels MatchString cfg entry lv = Returns lv' →
  length lv' = length lv ∧ 2 ≤ length lv ∧
  (entry !! "request" = None → lv' !! 0 = Some "UNKNOWN") ∧
  (∀ request, entry !! "request" = Some request → lv' !! 0 = Split request " " !! 0) ∧
  lv' !! 1 = Some (default "0" (entry !! "status")) ∧
  (∀ j c, RelabelConfigs cfg !! j = Some c →
     lv' !! (j + relabelLabelOffset cfg) = Some (relabel_value c entry)) ∧
  (∀ p, intrinsicLabelCount cfg ≤ p < relabelLabelOffset cfg → lv' !! p = lv !! p).
Proof.
  unfold resolve_labels. intros Hrun.
  apply bind_Returns in Hrun as (lv1 & [H0 ->]%set_index_Returns & Hrun).
  apply bind_Returns in Hrun as (lv2 & [H1 ->]%set_index_Returns & Hrun).
  apply bind_Returns in Hrun as (lv3 & Hreq & Hrun).
  apply bind_Returns in Hrun as (lv4 & Hst & Hrun).
  apply relabel_loop_inv in Hrun as (Hlen5 & Hrel & Hframe5).
  apply status_label_inv in Hst as (Hlen4 & Hframe4 & Hstat).
  apply request_labels_inv in Hreq as (Hlen3 & Hframe3 & Habs & Hpres).
  rewrite !length_insert in *.
  pose proof (intrinsic_ge_2 cfg) as Hi. pose proof (offset_ge_intrinsic cfg) as Ho.
  split_and!.
  - congruence.
  - lia.
  - intros Hnone. rewrite Hframe5, Hframe4, (Habs Hnone) by lia.
    rewrite list_lookup_insert_ne by done. by apply list_lookup_insert_eq.
  - intros request Hsome. rewrite Hframe5, Hframe4 by lia.
    by apply (Hpres request).
  - rewrite Hframe5 by lia. destruct (entry !! "status") as [s|]; simpl; [done|].
    subst lv4. rewrite Hframe3 by auto.
    apply list_lookup_insert_eq. by rewrite length_insert.
  - intros j c Hj. by apply (Hrel j c).
  - intros p [Hp1 Hp2]. rewrite Hframe5, Hframe4 by lia.
    rewrite Hframe3, !list_lookup_insert_ne; [done|lia|lia|lia|].
    unfold intrinsicLabelCount in Hp1.
    destruct (HasRouteMatchers cfg); [left; lia|by right].
Qed.

(** With route rules and a request, the route slot of the result is
    the one left by the route loop, which starts on a cleared slot. *)
Lemma resolve_labels_route cfg entry lv lv' request :
  resolve_labels MatchString cfg entry lv = Returns lv' →
  entry !! "request" = Some request → HasRouteMatchers cfg = true →
  ∃ lv0 lv1, lv0 !! 2 = Some "" ∧
    route_loop MatchString cfg (CompiledRouteRegexps cfg) 0 (Split request " ") lv0
      = Returns lv1 ∧
    lv' !! 2 = lv1 !! 2.
Proof.
  unfold resolve_labels. intros Hrun Hreq Hroutes.
  apply bind_Returns in Hrun as (lv1 & [H0 ->]%set_index_Returns & Hrun).
  apply bind_Returns in Hrun as (lv2 & [H1 ->]%set_index_Returns & Hrun).
  apply bind_Returns in Hrun as (lv3 & Hreql & Hrun).
  apply bind_Returns in Hrun as (lv4 & Hst & Hrun).
  apply relabel_loop_inv in Hrun as (_ & _ & Hframe5).
  apply status_label_inv in Hst as (_ & Hframe4 & _).
  destruct (request_labels_present _ _ _ _ _ Hreq Hreql) as (tok & _ & _ & Hcase).
  rewrite Hroutes in Hcase. destruct Hcase as [Hlt Hloop].
  eexists _, lv3. split_and!; [|exact Hloop|].
  - apply list_lookup_insert_eq. by rewrite length_insert.
  - pose proof (offset_ge_intrinsic cfg). rewrite (intrinsic_routes _ Hroutes) in *.
    rewrite Hframe5, Hframe4 by lia. done.
Qed.

Lemma request_labels_returns cfg entry lv :
  intrinsicLabelCount cfg ≤ length lv → request_safe cfg entry →
  ∃ lv', request_labels MatchString cfg entry lv = Returns lv'.
Proof.
  unfold request_safe, request_labels, Field, intrinsicLabelCount.
  intros Hlen Hsafe. destruct (entry !! "request") as [request|]; [|by eexists].
  destruct (Split_lookup_0 request " ") as [tok Htok].
  rewrite (proj2 (index_Returns _ _ _) Htok). simpl.
  destruct (HasRouteMatchers cfg).
  - rewrite set_index_lt by lia. simpl.
    rewrite set_index_lt by (rewrite length_insert; lia). simpl.
    destruct Hsafe as [?|[->|[[path Hpath] Hle]]]; [done|by eexists|].
    apply (route_loop_returns _ _ _ _ _ path); [done| |lia].
    rewrite !length_insert. lia.
  - rewrite set_index_lt by lia. by eexists.
Qed.

Lemma resolve_labels_returns cfg entry lv :
  length lv = totalLabelCount cfg → request_safe cfg entry →
  ∃ lv', resolve_labels MatchString cfg entry lv = Returns lv'.
Proof.
  intros Hlen Hsafe. unfold resolve_labels.
  pose proof (intrinsic_ge_2 cfg) as Hi. pose proof (offset_ge_intrinsic cfg) as Ho.
  rewrite total_eq in Hlen.
  rewrite set_index_lt by lia. simpl.
  rewrite set_index_lt by (rewrite length_insert; lia). simpl.
  destruct (request_labels_returns cfg entry (<[1:="0"]> (<[0:="UNKNOWN"]> lv)))
    as [lv3 Hreq]; [rewrite !length_insert; lia|done|].
  rewrite Hreq. simpl.
  apply request_labels_inv in Hreq as (Hlen3 & _). rewrite !length_insert in Hlen3.
  assert (∃ lv4, status_label entry lv3 = Returns lv4 ∧ length lv4 = length lv)
    as (lv4 & -> & Hlen4).
  { unfold status_label. destruct (Field entry "status") as [s|].
    - rewrite set_index_lt by lia. eexists. split; [done|]. by rewrite length_insert.
    - by eexists. }
  simpl. apply relabel_loop_returns. lia.
Qed.

Lemma request_labels_stores cfg entry lv :
  intrinsicLabelCount cfg ≤ length lv →
  stores_in_range (request_labels MatchString cfg entry lv).
Proof.
  unfold request_labels, intrinsicLabelCount. intros Hlen.
  destruct (Field entry "request") as [request|]; [|done].
  apply bind_stores_in_range; [apply index_stores_in_range|]. intros tok _.
  destruct (HasRouteMatchers cfg).
  - apply bind_stores_in_range; [apply set_index_stores_in_range; lia|].
    intros lv1 [_ ->]%set_index_Returns.
    apply bind_stores_in_range;
      [apply set_index_stores_in_range; rewrite length_insert; lia|].
    intros lv2 [_ ->]%set_index_Returns.
    apply route_loop_stores. rewrite !length_insert. lia.
  - apply bind_stores_in_range; [apply set_index_stores_in_range; lia|]. done.
Qed.

(** On a buffer of the computed length no assignment is out of range. *)
Lemma resolve_labels_stores cfg entry lv :
  length lv = totalLabelCount cfg →
  stores_in_range (resolve_labels MatchString cfg entry lv).
Proof.
  intros Hlen. unfold resolve_labels.
  pose proof (intrinsic_ge_2 cfg) as Hi. pose proof (offset_ge_intrinsic cfg) as Ho.
  rewrite total_eq in Hlen.
  apply bind_stores_in_range; [apply set_index_stores_in_range; lia|].
  intros lv1 [_ ->]%set_index_Returns.
  apply bind_stores_in_range;
    [apply set_index_stores_in_range; rewrite length_insert; lia|].
  intros lv2 [_ ->]%set_index_Returns.
  apply bind_stores_in_range;
    [apply request_labels_stores; rewrite !length_insert; lia|].
  intros lv3 (Hlen3 & _)%request_labels_inv. rewrite !length_insert in Hlen3.
  apply bind_stores_in_range.
  { unfold status_label. destruct (Field entry "status");
      [apply set_index_stores_in_range; lia|done]. }
  intros lv4 (Hlen4 & _)%status_label_inv.
  destruct (relabel_loop_returns (RelabelConfigs cfg) 0 (relabelLabelOffset cfg)
              entry lv4) as [lv5 ->]; [lia|done].
Qed.

(** *** Dispatch and the loop *)

Lemma WithLabelValues_Returns (vec : MetricVec) lv :
  WithLabelValues vec lv = Returns tt ↔ accepts (vecLabels vec) lv.
Proof.
  unfold WithLabelValues, accepts. case_decide as Hlen; [|split; [done|tauto]].
  destruct (List.find _ lv) as [v|] eqn:Hfind; split; try done.
  - intros [_ Hall]. apply List.find_some in Hfind as [Hin%list_elem_of_In Hv].
    rewrite Forall_forall in Hall. rewrite (Hall _ Hin) in Hv. done.
  - intros _. split; [done|]. apply Forall_forall. intros v Hin%list_elem_of_In.
    pose proof (List.find_none _ _ Hfind _ Hin) as Hv. by apply negb_false_iff.
Qed.

Lemma WithLabelValues_accepts (vec : MetricVec) lv :
  accepts (vecLabels vec) lv → WithLabelValues vec lv = Returns tt.
Proof. apply WithLabelValues_Returns. Qed.

(** The client never indexes out of range, and it objects to the number
    of values only when it differs from the number of label names. *)
Lemma WithLabelValues_panics (vec : MetricVec) lv :
  stores_in_range (WithLabelValues vec lv) ∧
  (length lv = length (vecLabels vec) → arity_respected (WithLabelValues vec lv)).
Proof.
  unfold WithLabelValues. case_decide; [|done]. by destruct (List.find _ lv).
Qed.

Lemma call_Inc_Returns (vec : MetricVec) lv (tr tr' : list (MetricOp Float)) :
  call_Inc vec lv tr = Returns tr' ↔ accepts (vecLabels vec) lv ∧ tr' = tr ++ [Inc vec lv].
Proof.
  unfold call_Inc. rewrite bind_Returns. split.
  - intros ([] & Hw%WithLabelValues_Returns & [= <-]). done.
  - intros [Hw%WithLabelValues_Returns ->]. by exists tt.
Qed.

Lemma call_Add_Returns (vec : MetricVec) lv x (tr tr' : list (MetricOp Float)) :
  call_Add vec lv x tr = Returns tr' ↔
  accepts (vecLabels vec) lv ∧ negative x = false ∧ tr' = tr ++ [Add vec lv x].
Proof.
  unfold call_Add. rewrite bind_Returns. split.
  - intros ([] & Hw%WithLabelValues_Returns & Hx).
    destruct (negative x); [done|]. by injection Hx as <-.
  - intros (Hw%WithLabelValues_Returns & -> & ->). by exists tt.
Qed.

Lemma call_Observe_Returns (vec : MetricVec) lv x (tr tr' : list (MetricOp Float)) :
  call_Observe vec lv x tr = Returns tr' ↔
  accepts (vecLabels vec) lv ∧ tr' = tr ++ [Observe vec lv x].
Proof.
  unfold call_Observe. rewrite bind_Returns. split.
  - intros ([] & Hw%WithLabelValues_Returns & [= <-]). done.
  - intros [Hw%WithLabelValues_Returns ->]. by exists tt.
Qed.

Lemma calls_ops metrics entry lv :
  calls ParseFloat metrics entry lv ≠ [] ∧
  Forall (λ op, op_labels op = lv ∧ op_vec op ∈ registered metrics)
    (calls ParseFloat metrics entry lv).
Proof.
  unfold calls, registered.
  destruct (FloatField ParseFloat entry "body_bytes_sent"),
    (FloatField ParseFloat entry "upstream_response_time"),
    (FloatField ParseFloat entry "request_time"); simpl;
    (split; [done|]); repeat constructor; simpl; set_solver.
Qed.

(** When the dispatch returns, the client accepted the label values,
    the number of bytes was not negative, and the calls were all made. *)
Lemma dispatch_inv metrics entry lv (tr tr' : list (MetricOp Float)) :
  dispatch ParseFloat metrics entry lv tr = Returns tr' →
  tr' = tr ++ calls ParseFloat metrics entry lv ∧
  accepts (vecLabels (countTotal metrics)) lv ∧
  bytes_not_negative ParseFloat entry.
Proof.
  unfold dispatch, calls, bytes_not_negative. intros Hrun.
  apply bind_Returns in Hrun as (tr1 & [Hacc ->]%call_Inc_Returns & Hrun).
  apply bind_Returns in Hrun as (tr2 & Hbytes & Hrun).
  apply bind_Returns in Hrun as (tr3 & Hupstream & Hrun).
  assert (tr2 = (tr ++ [Inc (countTotal metrics) lv])
                  ++ match FloatField ParseFloat entry "body_bytes_sent" with
                     | Some bytes => [Add (bytesTotal metrics) lv bytes]
                     | None => []
                     end ∧
          ∀ bytes, FloatField ParseFloat entry "body_bytes_sent" = Some bytes →
                   negative bytes = false) as [-> Hsign].
  { destruct (FloatField ParseFloat entry "body_bytes_sent") as [bytes|].
    - apply call_Add_Returns in Hbytes as (_ & Hsign & ->). split; [done|].
      by intros ? [= <-].
    - injection Hbytes as <-. by rewrite app_nil_r. }
  split_and!; [|done|done].
  destruct (FloatField ParseFloat entry "upstream_response_time") as [upstreamTime|];
    [apply bind_Returns in Hupstream
      as (tr4 & [_ ->]%call_Observe_Returns & [_ ->]%call_Observe_Returns)
    |injection Hupstream as <-];
    (destruct (FloatField ParseFloat entry "request_time") as [responseTime|];
     [apply bind_Returns in Hrun
       as (tr5 & [_ ->]%call_Observe_Returns & [_ ->]%call_Observe_Returns)
     |injection Hrun as <-]);
    simpl; rewrite <- ?app_assoc; simpl; by rewrite ?app_nil_r.
Qed.

(** With the vectors of [Init], the dispatch returns exactly when the
    client accepts the label values for the registered label names and
    the number of bytes is not negative. *)
Lemma dispatch_Init_Returns cfg entry lv (tr : list (MetricOp Float)) :
  accepts (init_labels cfg) lv → bytes_not_negative ParseFloat entry →
  dispatch ParseFloat (Init cfg) entry lv tr =
    Returns (tr ++ calls ParseFloat (Init cfg) entry lv).
Proof.
  unfold dispatch, calls, bytes_not_negative. intros Hacc Hsign.
  assert (∀ vec (tr0 : list (MetricOp Float)), vecLabels vec = init_labels cfg →
            call_Inc vec lv tr0 = Returns (tr0 ++ [Inc vec lv])) as Hinc.
  { intros vec tr0 Hvec. apply call_Inc_Returns. by rewrite Hvec. }
  assert (∀ vec x (tr0 : list (MetricOp Float)), vecLabels vec = init_labels cfg →
            negative x = false →
            call_Add vec lv x tr0 = Returns (tr0 ++ [Add vec lv x])) as Hadd.
  { intros vec x tr0 Hvec Hx. apply call_Add_Returns. by rewrite Hvec. }
  assert (∀ vec x (tr0 : list (MetricOp Float)), vecLabels vec = init_labels cfg →
            call_Observe vec lv x tr0 = Returns (tr0 ++ [Observe vec lv x])) as Hobs.
  { intros vec x tr0 Hvec. apply call_Observe_Returns. by rewrite Hvec. }
  rewrite Hinc by done. simpl.
  destruct (FloatField ParseFloat entry "body_bytes_sent") as [bytes|];
    [rewrite Hadd by auto|];
    simpl;
    (destruct (FloatField ParseFloat entry "upstream_response_time") as [upstreamTime|];
     [rewrite Hobs by done; simpl; rewrite Hobs by done|]; simpl);
    (destruct (FloatField ParseFloat entry "request_time") as [responseTime|];
     [rewrite Hobs by done; simpl; rewrite Hobs by done|]; simpl);
    f_equal; rewrite <- ?app_assoc; simpl; by rewrite ?app_nil_r.
Qed.

Lemma call_Inc_panics (vec : MetricVec) lv (tr : list (MetricOp Float)) :
  stores_in_range (call_Inc vec lv tr) ∧
  (length lv = length (vecLabels vec) → arity_respected (call_Inc vec lv tr)).
Proof.
  destruct (WithLabelValues_panics vec lv) as [Hstores Harity]. unfold call_Inc. split.
  - apply bind_stores_in_range; [done|]. by intros [] _.
  - intros Hlen. apply bind_arity_respected; [by apply Harity|]. by intros [] _.
Qed.

Lemma call_Add_panics (vec : MetricVec) lv x (tr : list (MetricOp Float)) :
  stores_in_range (call_Add vec lv x tr) ∧
  (length lv = length (vecLabels vec) → arity_respected (call_Add vec lv x tr)).
Proof.
  destruct (WithLabelValues_panics vec lv) as [Hstores Harity]. unfold call_Add. split.
  - apply bind_stores_in_range; [done|]. intros [] _. by destruct (negative x).
  - intros Hlen. apply bind_arity_respected; [by apply Harity|]. intros [] _.
    by destruct (negative x).
Qed.

Lemma call_Observe_panics (vec : MetricVec) lv x (tr : list (MetricOp Float)) :
  stores_in_range (call_Observe vec lv x tr) ∧
  (length lv = length (vecLabels vec) → arity_respected (call_Observe vec lv x tr)).
Proof.
  destruct (WithLabelValues_panics vec lv) as [Hstores Harity]. unfold call_Observe. split.
  - apply bind_stores_in_range; [done|]. by intros [] _.
  - intros Hlen. apply bind_arity_respected; [by apply Harity|]. by intros [] _.
Qed.

(** The dispatch never indexes out of range. *)
Lemma dispatch_stores metrics entry lv (tr : list (MetricOp Float)) :
  stores_in_range (dispatch ParseFloat metrics entry lv tr).
Proof.
  unfold dispatch.
  apply bind_stores_in_range; [apply call_Inc_panics|]. intros tr1 _.
  apply bind_stores_in_range.
  { destruct (FloatField ParseFloat entry "body_bytes_sent"); [apply call_Add_panics|done]. }
  intros tr2 _. apply bind_stores_in_range.
  { destruct (FloatField ParseFloat entry "upstream_response_time") as [x|]; [|done].
    apply bind_stores_in_range; [apply call_Observe_panics|]. intros tr3 _.
    apply call_Observe_panics. }
  intros tr3 _.
  destruct (FloatField ParseFloat entry "request_time") as [x|]; [|done].
  apply bind_stores_in_range; [apply call_Observe_panics|]. intros tr4 _.
  apply call_Observe_panics.
Qed.

(** On label values of the registered length the client never objects
    to the number of values. *)
Lemma dispatch_arity cfg entry lv (tr : list (MetricOp Float)) :
  length lv = length (init_labels cfg) →
  arity_respected (dispatch ParseFloat (Init cfg) entry lv tr).
Proof.
  intros Hlen. unfold dispatch.
  apply bind_arity_respected; [by apply call_Inc_panics|]. intros tr1 _.
  apply bind_arity_respected.
  { destruct (FloatField ParseFloat entry "body_bytes_sent");
      [by apply call_Add_panics|done]. }
  intros tr2 _. apply bind_arity_respected.
  { destruct (FloatField ParseFloat entry "upstream_response_time") as [x|]; [|done].
    apply bind_arity_respected; [by apply call_Observe_panics|]. intros tr3 _.
    by apply call_Observe_panics. }
  intros tr3 _.
  destruct (FloatField ParseFloat entry "request_time") as [x|]; [|done].
  apply bind_arity_respected; [by apply call_Observe_panics|]. intros tr4 _.
  by apply call_Observe_panics.
Qed.

Lemma process_line_ok metrics cfg st line entry st' :
  ParseString line = ParseOk entry →
  process_line MatchString ParseFloat ParseString metrics cfg st line = Returns st' →
  resolve_labels MatchString cfg entry (labelValues st) = Returns (labelValues st') ∧
  trace st' = trace st ++ calls ParseFloat metrics entry (labelValues st') ∧
  stdout st' = stdout st.
Proof.
  unfold process_line. intros -> Hrun.
  apply bind_Returns in Hrun as (lv & Hlv & Hrun).
  apply bind_Returns in Hrun as (tr & (-> & _)%dispatch_inv & [= <-]). done.
Qed.

Lemma process_line_err metrics cfg st line err :
  ParseString line = ParseErr err →
  process_line MatchString ParseFloat ParseString metrics cfg st line =
    Returns {| labelValues := labelValues st; trace := trace st;
               stdout := stdout st ++
                 [("error while parsing line '" ++ line ++ "': " ++ err)%string] |}.
Proof. unfold process_line. by intros ->. Qed.

(** A line leaves the length of the buffer and its static slots as they
    were, and every operation it adds carries the buffer it leaves. *)
Lemma process_line_inv metrics cfg st line st' :
  process_line MatchString ParseFloat ParseString metrics cfg st line = Returns st' →
  length (labelValues st') = length (labelValues st) ∧
  (∀ p, intrinsicLabelCount cfg ≤ p < relabelLabelOffset cfg →
        labelValues st' !! p = labelValues st !! p) ∧
  ∃ new, trace st' = trace st ++ new ∧
    Forall (λ op, op_labels op = labelValues st' ∧ op_vec op ∈ registered metrics) new.
Proof.
  intros Hrun. destruct (ParseString line) as [entry|err] eqn:Hparse.
  - destruct (process_line_ok _ _ _ _ _ _ Hparse Hrun) as (Hres & Htr & _).
    apply resolve_labels_inv in Hres as (Hlen & _ & _ & _ & _ & _ & Hframe).
    split_and!; [done..|]. eexists. split; [done|]. apply calls_ops.
  - rewrite (process_line_err _ _ _ _ _ Hparse) in Hrun. injection Hrun as <-. simpl.
    split_and!; [done..|]. exists []. by rewrite app_nil_r.
Qed.

Lemma process_line_stores metrics cfg st line :
  length (labelValues st) = totalLabelCount cfg →
  stores_in_range (process_line MatchString ParseFloat ParseString metrics cfg st line).
Proof.
  intros Hlen. unfold process_line. destruct (ParseString line) as [entry|err]; [|done].
  apply bind_stores_in_range; [by apply resolve_labels_stores|]. intros lv _.
  apply bind_stores_in_range; [apply dispatch_stores|done].
Qed.

(** An invariant of the buffer and of the operations added, kept by
    every line, holds after any number of lines. *)
Lemma ingest_inv metrics cfg (lines : list string) : ∀ st st',
  ingest MatchString ParseFloat ParseString metrics cfg st lines = Returns st' →
  length (labelValues st') = length (labelValues st) ∧
  (∀ p, intrinsicLabelCount cfg ≤ p < relabelLabelOffset cfg →
        labelValues st' !! p = labelValues st !! p) ∧
  ∃ new, trace st' = trace st ++ new ∧
    Forall (λ op, length (op_labels op) = length (labelValues st) ∧
                  op_vec op ∈ registered metrics ∧
                  ∀ p, intrinsicLabelCount cfg ≤ p < relabelLabelOffset cfg →
                       op_labels op !! p = labelValues st !! p) new.
Proof.
  induction lines as [|line lines IH]; intros st st' Hrun; simpl in Hrun.
  - injection Hrun as <-. split_and!; [done..|]. exists []. by rewrite app_nil_r.
  - apply bind_Returns in Hrun as (st1 & Hline & Hrun).
    apply process_line_inv in Hline as (Hlen1 & Hframe1 & new1 & Htr1 & Hnew1).
    apply IH in Hrun as (Hlen & Hframe & new & Htr & Hnew).
    split_and!.
    + congruence.
    + intros p Hp. by rewrite Hframe, Hframe1.
    + exists (new1 ++ new). split; [by rewrite Htr, Htr1, app_assoc|].
      apply Forall_app. split.
      * eapply Forall_impl; [exact Hnew1|]. intros op [-> Hvec]. simpl.
        split_and!; [done..|]. intros p Hp. by apply Hframe1.
      * eapply Forall_impl; [exact Hnew|]. intros op (Hl & Hvec & Hst). simpl in *.
        split_and!; [congruence|done|]. intros p Hp. by rewrite Hst, Hframe1.
Qed.

Lemma ingest_stores metrics cfg (lines : list string) : ∀ st,
  length (labelValues st) = totalLabelCount cfg →
  stores_in_range (ingest MatchString ParseFloat ParseString metrics cfg st lines).
Proof.
  induction lines as [|line lines IH]; intros st Hlen; simpl; [done|].
  apply bind_stores_in_range; [by apply process_line_stores|].
  intros st1 (Hlen1 & _)%process_line_inv. apply IH. congruence.
Qed.

Lemma bind_client_free {A B : Type} (m : outcome A) (k : A → outcome B) :
  client_free m → (∀ a, m = Returns a → client_free (k a)) → client_free (m ≫= k).
Proof.
  unfold mbind, outcome_bind. destruct m as [a|acc i n|why]; simpl; intros Hm Hk.
  - by apply Hk.
  - done.
  - done.
Qed.

Lemma index_client_free (s : list string) i : client_free (index s i).
Proof. unfold index. by destruct (s !! i). Qed.

Lemma set_index_client_free (s : list string) i v : client_free (set_index s i v).
Proof. unfold set_index. by case_decide. Qed.

(** The label resolution makes no call on the client. *)
Lemma resolve_labels_client_free cfg entry lv :
  client_free (resolve_labels MatchString cfg entry lv).
Proof.
  unfold resolve_labels.
  apply bind_client_free; [apply set_index_client_free|]. intros lv1 _.
  apply bind_client_free; [apply set_index_client_free|]. intros lv2 _.
  apply bind_client_free.
  { unfold request_labels. destruct (Field entry "request") as [request|]; [|done].
    apply bind_client_free; [apply index_client_free|]. intros tok _.
    apply bind_client_free; [apply set_index_client_free|]. intros lv3 _.
    destruct (HasRouteMatchers cfg); [|done].
    apply bind_client_free; [apply set_index_client_free|]. intros lv4 _.
    generalize 0. induction (CompiledRouteRegexps cfg) as [|re res IH]; intros i; simpl;
      [done|].
    apply bind_client_free; [apply index_client_free|]. intros path _.
    destruct (MatchString re path); [|apply IH].
    apply bind_client_free; [apply index_client_free|]. intros route _.
    apply set_index_client_free. }
  intros lv3 _. apply bind_client_free.
  { unfold status_label. destruct (Field entry "status");
      [apply set_index_client_free|done]. }
  intros lv4 _. generalize 0. revert lv4.
  induction (RelabelConfigs cfg) as [|c cs IH]; intros lv4 i; [done|].
  rewrite relabel_loop_unfold.
  apply bind_client_free; [apply set_index_client_free|]. intros lv5 _. apply IH.
Qed.

Lemma process_line_arity cfg st line :
  length (labelValues st) = length (init_labels cfg) →
  arity_respected
    (process_line MatchString ParseFloat ParseString (Init cfg) cfg st line).
Proof.
  intros Hlen. unfold process_line. destruct (ParseString line) as [entry|err]; [|done].
  apply bind_arity_respected.
  { pose proof (resolve_labels_client_free cfg entry (labelValues st)) as Hfree.
    by destruct (resolve_labels MatchString cfg entry (labelValues st)). }
  intros lv (Hlv & _)%resolve_labels_inv.
  apply bind_arity_respected; [|done]. apply dispatch_arity. congruence.
Qed.

Lemma ingest_arity cfg (lines : list string) : ∀ st,
  length (labelValues st) = length (init_labels cfg) →
  arity_respected (ingest MatchString ParseFloat ParseString (Init cfg) cfg st lines).
Proof.
  induction lines as [|line lines IH]; intros st Hlen; simpl; [done|].
  apply bind_arity_respected; [by apply process_line_arity|].
  intros st1 (Hlen1 & _)%process_line_inv. apply IH. congruence.
Qed.

Lemma registered_labels cfg :
  Forall (λ vec, vecLabels vec = init_labels cfg) (registered (Init cfg)).
Proof. unfold registered, Init. simpl. by repeat constructor. Qed.

Lemma process_line_labels metrics cfg st line entry st' :
  ParseString line = ParseOk entry →
  process_line MatchString ParseFloat ParseString metrics cfg st line = Returns st' →
  line_labels st st' (labelValues st').
Proof.
  intros Hparse Hrun.
  destruct (process_line_ok _ _ _ _ _ _ Hparse Hrun) as (_ & Htr & _).
  destruct (calls_ops metrics entry (labelValues st')) as [Hne Hall].
  split; [done|]. eexists. split_and!; [done..|].
  eapply Forall_impl; [exact Hall|]. by intros op [? _].
Qed.

Lemma run_inv cfg (lines : list string) st :
  run MatchString ParseFloat ParseString cfg lines = Returns st →
  length (labelValues st) = totalLabelCount cfg ∧
  (∀ i v, OrderedLabelValues cfg !! i = Some v →
          labelValues st !! (i + intrinsicLabelCount cfg) = Some v) ∧
  Forall (λ op, length (op_labels op) = totalLabelCount cfg ∧
                op_vec op ∈ registered (Init cfg) ∧
                ∀ i v, OrderedLabelValues cfg !! i = Some v →
                       op_labels op !! (i + intrinsicLabelCount cfg) = Some v) (trace st).
Proof.
  unfold run. destruct (start_spec cfg) as (lv & -> & Hlen & Hstatic). simpl.
  intros (Hlen' & Hframe & new & Htr & Hnew)%ingest_inv. simpl in *.
  assert (∀ i v, OrderedLabelValues cfg !! i = Some v →
            intrinsicLabelCount cfg ≤ i + intrinsicLabelCount cfg < relabelLabelOffset cfg)
    as Hpos.
  { intros i v Hi%lookup_lt_Some. unfold relabelLabelOffset. lia. }
  split_and!.
  - congruence.
  - intros i v Hi. rewrite Hframe by eauto. by apply Hstatic.
  - rewrite Htr. eapply Forall_impl; [exact Hnew|]. intros op (Hl & Hvec & Hst).
    split_and!; [congruence|done|]. intros i v Hi. rewrite Hst by eauto. by apply Hstatic.
Qed.



(** *** The claims *)

(** C3: the six vectors are registered under the label names "method",
    "status", then "request_uri" exactly when at least one route rule is
    configured, then the static label names in declared order, then the
    relabel target labels in declared order. *)
Theorem Init_label_order cfg :
  Forall (λ vec, vecLabels vec =
            ["method"; "status"]
              ++ match Routes cfg with [] => [] | _ :: _ => ["request_uri"] end
              ++ OrderedLabelNames cfg ++ map TargetLabel (RelabelConfigs cfg))
    (registered (Init cfg)).
Proof.
  eapply Forall_impl; [apply registered_labels|]. intros vec ->.
  rewrite init_labels_eq. unfold HasRouteMatchers. by destruct (Routes cfg).
Qed.

(** C4: when there are as many static label names as static label
    values, the buffer allocated by the set-up has as many slots as the
    vectors have label names; after any number of lines it still has,
    every operation recorded carries that many label values, and no
    assignment to a slot was ever out of range (an index panic, if any,
    comes from a read); if the client panics, it is not about the number
    of label values. *)
Theorem label_vector_arity_fixed cfg (lines : list string) :
  length (OrderedLabelNames cfg) = length (OrderedLabelValues cfg) →
  ∃ st0, start Float cfg = Returns st0 ∧
    length (labelValues st0) = length (init_labels cfg) ∧
    match ingest MatchString ParseFloat ParseString (Init cfg) cfg st0 lines with
    | Returns st =>
        length (labelValues st) = length (init_labels cfg) ∧
        Forall (λ op, length (op_labels op) = length (vecLabels (op_vec op))) (trace st)
    | Panics acc _ _ => acc = Load
    | Aborts why => ∀ expected got, why ≠ LabelCardinality expected got
    end.
Proof.
  intros Hnames. pose proof (length_init_labels cfg Hnames) as Harity.
  destruct (start_spec cfg) as (lv & Hstart & Hlen & _).
  eexists. split_and!; [exact Hstart|simpl; congruence|].
  pose proof (ingest_stores (Init cfg) cfg lines
                {| labelValues := lv; trace := []; stdout := [] |} Hlen) as Hstores.
  pose proof (ingest_arity cfg lines
                {| labelValues := lv; trace := []; stdout := [] |}) as Hcard.
  simpl in Hcard. rewrite Harity in Hcard. specialize (Hcard Hlen).
  pose proof (run_inv cfg lines) as Hinv. unfold run in Hinv. rewrite Hstart in Hinv.
  simpl in Hinv.
  destruct (ingest _ _ _ _ _ _ lines) as [st|acc i n|why].
  - destruct (Hinv st eq_refl) as (Hlen' & _ & Hops). split; [congruence|].
    eapply Forall_impl; [exact Hops|]. intros op (Hl & Hvec & _).
    pose proof (registered_labels cfg) as Hreg. rewrite Forall_forall in Hreg.
    rewrite (Hreg _ Hvec). congruence.
  - by destruct acc.
  - intros expected got ->. done.
Qed.

(** C5: on a line that is processed to the end, the slot of the [i]-th
    relabel rule holds the empty string when the rule's source field is
    absent, "other" when the field is present, a whitelist is configured
    and the value is not in it, and the raw value otherwise. *)
Theorem relabel_resolution metrics cfg st line entry st' i c :
  ParseString line = ParseOk entry →
  process_line MatchString ParseFloat ParseString metrics cfg st line = Returns st' →
  RelabelConfigs cfg !! i = Some c →
  ∃ lv v, line_labels st st' lv ∧ lv !! (i + relabelLabelOffset cfg) = Some v ∧
    (entry !! SourceValue c = None → v = "") ∧
    (∀ raw, entry !! SourceValue c = Some raw →
       WhitelistExists c = true → raw ∉ WhitelistMap c → v = "other") ∧
    (∀ raw, entry !! SourceValue c = Some raw →
       WhitelistExists c = false ∨ raw ∈ WhitelistMap c → v = raw).
Proof.
  intros Hparse Hrun Hc.
  pose proof (process_line_labels _ _ _ _ _ _ Hparse Hrun) as Hlabels.
  destruct (process_line_ok _ _ _ _ _ _ Hparse Hrun) as (Hres & _ & _).
  apply resolve_labels_inv in Hres as (_ & _ & _ & _ & _ & Hrel & _).
  exists (labelValues st'), (relabel_value c entry).
  split_and!; [done|by apply Hrel|..]; unfold relabel_value, Field.
  - by intros ->.
  - intros raw -> -> Hnotin. by rewrite bool_decide_eq_false_2.
  - intros raw -> [->|Hin]; [done|].
    rewrite bool_decide_eq_true_2 by done. by rewrite andb_false_r.
Qed.

(** C6, amended: with route rules configured (as many compiled patterns
    as routes), the label values of a line whose request contains a
    space are resolved without a panic, and the route slot holds the
    route of the first pattern, in declared order, that matches the
    second piece of [strings.Split(request, " ")] (the text between the
    first and the second space, which is empty when the two are
    adjacent), and the empty string when no pattern matches it.  These
    are the label values of the metric updates of the line. *)
Theorem route_first_match cfg (lines : list string) st line entry request path :
  run MatchString ParseFloat ParseString cfg lines = Returns st →
  Routes cfg ≠ [] →
  length (Routes cfg) = length (CompiledRouteRegexps cfg) →
  ParseString line = ParseOk entry →
  entry !! "request" = Some request →
  Split request " " !! 1 = Some path →
  ∃ lv,
    resolve_labels MatchString cfg entry (labelValues st) = Returns lv ∧
    (∀ st', process_line MatchString ParseFloat ParseString (Init cfg) cfg st line
              = Returns st' → line_labels st st' lv) ∧
    (∀ k re, CompiledRouteRegexps cfg !! k = Some re → MatchString re path = true →
       (∀ j re', j < k → CompiledRouteRegexps cfg !! j = Some re' →
                 MatchString re' path = false) →
       lv !! 2 = Routes cfg !! k) ∧
    ((∀ re, re ∈ CompiledRouteRegexps cfg → MatchString re path = false) →
       lv !! 2 = Some "").
Proof.
  intros (Hlen & _)%run_inv Hroutes%HasRouteMatchers_spec Hcompiled Hparse Hreq Hpath.
  destruct (resolve_labels_returns cfg entry (labelValues st))
    as [lv Hres]; [done| |].
  { unfold request_safe. rewrite Hreq. right. right. split; [by eexists|lia]. }
  exists lv. split; [exact Hres|]. split.
  { intros st' Hrun. pose proof (process_line_labels _ _ _ _ _ _ Hparse Hrun) as Hlabels.
    destruct (process_line_ok _ _ _ _ _ _ Hparse Hrun) as (Hres' & _ & _).
    rewrite Hres in Hres'. by injection Hres' as ->. }
  destruct (resolve_labels_route _ _ _ _ _ Hres Hreq Hroutes)
    as (lv0 & lv1 & Hclear & Hloop & ->).
  apply route_loop_inv in Hloop
    as [[Hnil ->]|(path' & Hpath' & [[Hnone ->]|(k' & re' & route & Hk' & Hm' & Hfirst' & Hroute & Hlt & ->)])].
  - split; [|done]. intros k re Hk. rewrite Hnil in Hk. done.
  - assert (path' = path) as -> by congruence. split; [|done].
    intros k re Hk Hm. rewrite Hnone in Hm; [done|]. by eapply list_elem_of_lookup_2.
  - assert (path' = path) as -> by congruence.
    rewrite list_lookup_insert_eq by done. split.
    + intros k re Hk Hm Hfirst. destruct (lt_eq_lt_dec k k') as [[Hlt'| ->]|Hgt].
      * rewrite (Hfirst' k re) in Hm; done.
      * done.
      * rewrite (Hfirst k' re') in Hm'; done.
    + intros Hnone. rewrite Hnone in Hm'; [done|]. by eapply list_elem_of_lookup_2.
Qed.

(** C7, amended: on a line that is processed to the end, the method
    slot holds "UNKNOWN" when the request field is absent and, whenever
    the field is present, the text of the request before its first space
    (the whole request, empty or not, when it has no space); the status
    slot holds the status field when present and "0" when absent. *)
Theorem method_status_slots metrics cfg st line entry st' :
  ParseString line = ParseOk entry →
  process_line MatchString ParseFloat ParseString metrics cfg st line = Returns st' →
  ∃ lv, line_labels st st' lv ∧
    (entry !! "request" = None → lv !! 0 = Some "UNKNOWN") ∧
    (∀ request, entry !! "request" = Some request →
       ∃ tok, lv !! 0 = Some tok ∧ free_of " " tok ∧
         (request = tok ∨ ∃ rest, request = (tok ++ String " " rest)%string)) ∧
    (entry !! "status" = None → lv !! 1 = Some "0") ∧
    (∀ s, entry !! "status" = Some s → lv !! 1 = Some s).
Proof.
  intros Hparse Hrun.
  pose proof (process_line_labels _ _ _ _ _ _ Hparse Hrun) as Hlabels.
  destruct (process_line_ok _ _ _ _ _ _ Hparse Hrun) as (Hres & _ & _).
  apply resolve_labels_inv in Hres as (_ & _ & Habs & Hpres & Hstatus & _ & _).
  exists (labelValues st'). split_and!; [done..| | |].
  - intros request Hreq. rewrite (Hpres _ Hreq).
    destruct (Split_head request " ") as (tok & pieces & -> & Hfree & Hshape).
    exists tok. split_and!; [done..|].
    destruct Hshape as [[_ ->]|(rest & -> & _)]; [by left|right; by exists rest].
  - intros Hnone. by rewrite Hstatus, Hnone.
  - intros s Hs. by rewrite Hstatus, Hs.
Qed.

(** C8: a line the parser rejects changes neither the trace of metric
    operations nor the label buffer; the ingestor goes on with the next
    line from there. *)
Theorem parse_error_skips metrics cfg st line err (rest : list string) :
  ParseString line = ParseErr err →
  ∃ st', process_line MatchString ParseFloat ParseString metrics cfg st line = Returns st' ∧
    trace st' = trace st ∧ labelValues st' = labelValues st ∧
    ingest MatchString ParseFloat ParseString metrics cfg st (line :: rest) =
      ingest MatchString ParseFloat ParseString metrics cfg st' rest.
Proof.
  intros Hparse. eexists. split_and!.
  - by apply process_line_err.
  - done.
  - done.
  - simpl. by rewrite (process_line_err _ _ _ _ _ Hparse).
Qed.

(** C10: after any number of lines the static slots of the buffer, and
    of every operation recorded, hold the configured static label values,
    and one more line leaves every slot from [intrinsicLabelCount] up to
    [relabelLabelOffset - 1] as it was. *)
Theorem static_slots_frame cfg (lines : list string) st :
  run MatchString ParseFloat ParseString cfg lines = Returns st →
  (∀ i v, OrderedLabelValues cfg !! i = Some v →
          labelValues st !! (i + intrinsicLabelCount cfg) = Some v) ∧
  Forall (λ op, ∀ i v, OrderedLabelValues cfg !! i = Some v →
                       op_labels op !! (i + intrinsicLabelCount cfg) = Some v) (trace st) ∧
  (∀ line st',
     process_line MatchString ParseFloat ParseString (Init cfg) cfg st line = Returns st' →
     ∀ p, intrinsicLabelCount cfg ≤ p < relabelLabelOffset cfg →
          labelValues st' !! p = labelValues st !! p).
Proof.
  intros (_ & Hstatic & Hops)%run_inv. split_and!.
  - done.
  - eapply Forall_impl; [exact Hops|]. by intros op (_ & _ & ?).
  - intros line st' (_ & Hframe & _)%process_line_inv. done.
Qed.

End Properties.

(** ** The claims on the concrete instance *)

(** C2: with route rules configured, a line whose request is the single
    piece "GET" panics on the read of the second piece, and the lines
    after it are never processed. *)
Theorem short_request_panics :
  ∃ entry,
    Demo.ParseString Demo.line_short = ParseOk entry ∧ entry !! "request" = Some "GET" ∧
    malformed "GET" ∧
    Demo.process_line (Init Demo.cfg) Demo.cfg Demo.st0 Demo.line_short = Panics Load 1 1 ∧
    Demo.run Demo.cfg [Demo.line_short; Demo.line1] = Panics Load 1 1.
Proof. eexists. split_and!; vm_compute; (reflexivity || lia). Qed.

(** C6, as stated, fails: the request "GET  /api/v1 HTTP/1.1" has three
    whitespace-delimited tokens, the first pattern matches the second of
    them, and yet the route slot of the line is the empty string: the
    patterns were tried on the empty piece between the two spaces. *)
Lemma route_double_space_counterexample :
  ∃ entry st,
    Demo.ParseString Demo.line_double = ParseOk entry ∧
    entry !! "request" = Some "GET  /api/v1 HTTP/1.1" ∧
    whitespace_tokens "GET  /api/v1 HTTP/1.1" = ["GET"; "/api/v1"; "HTTP/1.1"] ∧
    CompiledRouteRegexps Demo.cfg !! 0 = Some "/api" ∧
    Routes Demo.cfg !! 0 = Some "^/api" ∧
    Demo.MatchString "/api" "/api/v1" = true ∧
    Demo.run Demo.cfg [Demo.line_double] = Returns st ∧
    trace st ≠ [] ∧
    Forall (λ op, op_labels op !! 2 = Some "" ∧ op_labels op !! 2 ≠ Some "^/api")
      (trace st).
Proof.
  eexists _, _. split_and!; [vm_compute; reflexivity..| |].
  - done.
  - simpl. repeat constructor; done.
Qed.

(** C7, as stated, fails: the empty request is present and malformed,
    and the method slot of its line is the empty string, not "UNKNOWN". *)
Lemma method_malformed_counterexample :
  ∃ entry st,
    Demo.ParseString Demo.line_empty = ParseOk entry ∧ entry !! "request" = Some "" ∧
    malformed "" ∧
    Demo.run Demo.cfg_plain [Demo.line_empty] = Returns st ∧
    trace st ≠ [] ∧
    Forall (λ op, op_labels op !! 0 = Some "" ∧ op_labels op !! 0 ≠ Some "UNKNOWN") (trace st).
Proof.
  eexists _, _. split_and!; [vm_compute; reflexivity..|unfold malformed; simpl; lia| | |].
  - vm_compute. reflexivity.
  - done.
  - simpl. repeat constructor; done.
Qed.

(** C9: a line whose three numeric fields all parse, the number of
    bytes as -1: the count is incremented, the addition of -1 makes the
    client panic, and neither the observations of this line nor the lines
    after it are ever made. *)
Theorem negative_bytes_abort :
  ∃ entry bytes upstreamTime responseTime,
    Demo.ParseString Demo.line_negative = ParseOk entry ∧
    FloatField Demo.ParseFloat entry "body_bytes_sent" = Some bytes ∧
    negative bytes = true ∧
    FloatField Demo.ParseFloat entry "upstream_response_time" = Some upstreamTime ∧
    FloatField Demo.ParseFloat entry "request_time" = Some responseTime ∧
    Demo.process_line (Init Demo.cfg) Demo.cfg Demo.st0 Demo.line_negative
      = Aborts CounterDecrease ∧
    Demo.run Demo.cfg [Demo.line_negative; Demo.line1] = Aborts CounterDecrease.
Proof. eexists _, _, _, _. split_and!; vm_compute; reflexivity. Qed.

(** The arity on three lines, the second of which the parser rejects. *)
Lemma label_vector_arity_fixed_witness :
  ∃ st0, start Demo.decimal Demo.cfg = Returns st0 ∧
    length (labelValues st0) = length (init_labels Demo.cfg) ∧
    match Demo.ingest (Init Demo.cfg) Demo.cfg st0
            [Demo.line1; "garbage"; Demo.line_root] with
    | Returns st =>
        length (labelValues st) = length (init_labels Demo.cfg) ∧
        Forall (λ op, length (op_labels op) = length (vecLabels (op_vec op))) (trace st)
    | Panics acc _ _ => acc = Load
    | Aborts why => ∀ expected got, why ≠ LabelCardinality expected got
    end.
Proof.
  apply (label_vector_arity_fixed Demo.MatchString Demo.ParseFloat Demo.ParseString
           Demo.cfg [Demo.line1; "garbage"; Demo.line_root]).
  reflexivity.
Defined.

(** The rule with whitelist 200, 404 on the first line. *)
Lemma relabel_resolution_witness :
  ∃ lv v, line_labels Demo.st0 Demo.st1 lv ∧
    lv !! (0 + relabelLabelOffset Demo.cfg) = Some v ∧
    (Demo.entry1 !! SourceValue Demo.code_rule = None → v = "") ∧
    (∀ raw, Demo.entry1 !! SourceValue Demo.code_rule = Some raw →
       WhitelistExists Demo.code_rule = true → raw ∉ WhitelistMap Demo.code_rule →
       v = "other") ∧
    (∀ raw, Demo.entry1 !! SourceValue Demo.code_rule = Some raw →
       WhitelistExists Demo.code_rule = false ∨ raw ∈ WhitelistMap Demo.code_rule →
       v = raw).
Proof.
  apply (relabel_resolution Demo.MatchString Demo.ParseFloat Demo.ParseString
           (Init Demo.cfg) Demo.cfg Demo.st0 Demo.line1 Demo.entry1 Demo.st1 0
           Demo.code_rule); vm_compute; reflexivity.
Defined.

(** The routes ^/api, ^/ on the path /api/v1: the first rule wins. *)
Lemma route_first_match_witness :
  ∃ lv,
    resolve_labels Demo.MatchString Demo.cfg Demo.entry1 (labelValues Demo.st0)
      = Returns lv ∧
    line_labels Demo.st0 Demo.st1 lv ∧ lv !! 2 = Some "^/api".
Proof.
  destruct (route_first_match Demo.MatchString Demo.ParseFloat Demo.ParseString
              Demo.cfg [] Demo.st0 Demo.line1 Demo.entry1 "GET /api/v1 HTTP/1.1" "/api/v1")
    as (lv & Hres & Hlabels & Hfirst & _).
  - vm_compute. reflexivity.
  - discriminate.
  - reflexivity.
  - vm_compute. reflexivity.
  - vm_compute. reflexivity.
  - reflexivity.
  - exists lv. split_and!; [exact Hres| |].
    + apply Hlabels. vm_compute. reflexivity.
    + apply (Hfirst 0 "/api"); [reflexivity|reflexivity|]. intros j re' Hj. lia.
Defined.

(** Method and status of the first line. *)
Lemma method_status_slots_witness :
  ∃ lv, line_labels Demo.st0 Demo.st1 lv ∧
    (Demo.entry1 !! "request" = None → lv !! 0 = Some "UNKNOWN") ∧
    (∀ request, Demo.entry1 !! "request" = Some request →
       ∃ tok, lv !! 0 = Some tok ∧ free_of " " tok ∧
         (request = tok ∨ ∃ rest, request = (tok ++ String " " rest)%string)) ∧
    (Demo.entry1 !! "status" = None → lv !! 1 = Some "0") ∧
    (∀ s, Demo.entry1 !! "status" = Some s → lv !! 1 = Some s).
Proof.
  apply (method_status_slots Demo.MatchString Demo.ParseFloat Demo.ParseString
           (Init Demo.cfg) Demo.cfg Demo.st0 Demo.line1 Demo.entry1 Demo.st1);
    vm_compute; reflexivity.
Defined.

(** A line the parser rejects, between two well-formed lines. *)
Lemma parse_error_skips_witness :
  ∃ st', Demo.process_line (Init Demo.cfg) Demo.cfg Demo.st1 "garbage" = Returns st' ∧
    trace st' = trace Demo.st1 ∧ labelValues st' = labelValues Demo.st1 ∧
    Demo.ingest (Init Demo.cfg) Demo.cfg Demo.st1 ["garbage"; Demo.line1] =
      Demo.ingest (Init Demo.cfg) Demo.cfg st' [Demo.line1].
Proof.
  apply (parse_error_skips Demo.MatchString Demo.ParseFloat Demo.ParseString
           (Init Demo.cfg) Demo.cfg Demo.st1 "garbage"
           ("access log line 'garbage' does not match given format '"
              ++ Demo.expression ++ "'")%string [Demo.line1]).
  reflexivity.
Defined.

(** The static slot after the first line. *)
Lemma static_slots_frame_witness :
  (∀ i v, OrderedLabelValues Demo.cfg !! i = Some v →
          labelValues Demo.st1 !! (i + intrinsicLabelCount Demo.cfg) = Some v) ∧
  Forall (λ op, ∀ i v, OrderedLabelValues Demo.cfg !! i = Some v →
                       op_labels op !! (i + intrinsicLabelCount Demo.cfg) = Some v)
    (trace Demo.st1) ∧
  (∀ line st',
     Demo.process_line (Init Demo.cfg) Demo.cfg Demo.st1 line = Returns st' →
     ∀ p, intrinsicLabelCount Demo.cfg ≤ p < relabelLabelOffset Demo.cfg →
          labelValues st' !! p = labelValues Demo.st1 !! p).
Proof.
  apply (static_slots_frame Demo.MatchString Demo.ParseFloat Demo.ParseString
           Demo.cfg [Demo.line1] Demo.st1).
  vm_compute. reflexivity.
Defined.

(** ** Further properties of the code *)

(** *** [strings.Split] *)

Lemma joined_cons piece rest sep :
  rest ≠ [] → joined (piece :: rest) sep = (piece ++ String sep (joined rest sep))%string.
Proof. by destruct rest. Qed.

(** The pieces of a split are free of the separator, there is one more
    of them than there are separators, and joined again they give the
    string back. *)
Theorem Split_joined s sep :
  joined (Split s sep) sep = s ∧
  Forall (free_of sep) (Split s sep) ∧
  length (Split s sep) = S (occurrences sep s).
Proof.
  induction s as [|c s (Hjoin & Hfree & Hlen)]; simpl.
  - split_and!; [done|by repeat constructor|done].
  - pose proof (Split_nonempty s sep) as Hne.
    destruct (Ascii.eqb_spec c sep) as [->|Hc].
    + split_and!.
      * rewrite joined_cons by done. simpl. by rewrite Hjoin.
      * by constructor.
      * simpl. by rewrite Hlen.
    + destruct (Split s sep) as [|piece pieces]; [done|].
      apply Forall_cons in Hfree as [Hpiece Hpieces].
      split_and!.
      * rewrite <- Hjoin. by destruct pieces.
      * by constructor.
      * done.
Qed.

Section Further.

Context {Regexp : Type} (MatchString : Regexp → string → bool).
Context {Float : Type} (ParseFloat : string → option Float) `{!Float64 Float}.
Context (ParseString : string → parsed).

Implicit Types (cfg : NamespaceConfig Regexp) (lv : list string).
Implicit Types (entry : gmap string string) (st : Ingestor Float).

(** *** The set-up *)

(** [make] and the loop that fills in the static label values. *)
Lemma start_make_fill cfg :
  start Float cfg =
    Returns {| labelValues :=
                 replicate (intrinsicLabelCount cfg) "" ++ OrderedLabelValues cfg
                   ++ replicate (length (RelabelConfigs cfg)) "";
               trace := []; stdout := [] |}.
Proof.
  unfold start.
  destruct (fill_static_spec (OrderedLabelValues cfg) 0 (intrinsicLabelCount cfg)
              (make (totalLabelCount cfg))) as (lv & -> & Hlen & Hget & Hframe).
  { unfold make. rewrite length_replicate. unfold totalLabelCount. lia. }
  simpl. do 2 f_equal. unfold make in *. rewrite length_replicate in Hlen.
  unfold totalLabelCount in *.
  set (a := intrinsicLabelCount cfg) in *. set (vals := OrderedLabelValues cfg) in *.
  set (b := length (RelabelConfigs cfg)) in *.
  apply list_eq. intros p.
  destruct (decide (p < a)) as [Hpa|Hpa].
  - rewrite Hframe by lia. rewrite lookup_app_l by (rewrite length_replicate; lia).
    by rewrite !lookup_replicate_2 by lia.
  - rewrite lookup_app_r by (rewrite length_replicate; lia). rewrite length_replicate.
    destruct (decide (p - a < length vals)) as [Hpv|Hpv].
    + rewrite lookup_app_l by done.
      destruct (lookup_lt_is_Some_2 vals (p - a) Hpv) as [v Hv].
      rewrite Hv. rewrite <- (Hget _ _ Hv). f_equal. lia.
    + rewrite lookup_app_r by lia. rewrite Hframe by lia.
      destruct (decide (p < length vals + a + b)) as [Hpt|Hpt].
      * by rewrite !lookup_replicate_2 by lia.
      * by rewrite !lookup_ge_None_2 by (rewrite ?length_replicate; lia).
Qed.

(** The set-up never panics, and the buffer it leaves holds the static
    label values at their slots and the empty string everywhere else. *)
Theorem start_buffer cfg :
  start Float cfg =
    Returns {| labelValues :=
                 replicate (intrinsicLabelCount cfg) "" ++ OrderedLabelValues cfg
                   ++ replicate (length (RelabelConfigs cfg)) "";
               trace := []; stdout := [] |}.
Proof. apply start_make_fill. Qed.

(** Every operation recorded carries as many label values as its vector
    has label names, corrected by the difference between the numbers of
    static label values and of static label names. *)
Theorem arity_law cfg (lines : list string) st :
  run MatchString ParseFloat ParseString cfg lines = Returns st →
  Forall (λ op, length (op_labels op) + length (OrderedLabelNames cfg) =
                length (vecLabels (op_vec op)) + length (OrderedLabelValues cfg))
    (trace st).
Proof.
  intros (_ & _ & Hops)%run_inv.
  eapply Forall_impl; [exact Hops|]. intros op (Hlen & Hvec & _).
  pose proof (registered_labels cfg) as Hreg. rewrite Forall_forall in Hreg.
  rewrite (Hreg _ Hvec), Hlen, init_labels_eq.
  unfold totalLabelCount, intrinsicLabelCount. rewrite !length_app, length_map.
  destruct (HasRouteMatchers cfg); simpl; lia.
Qed.

(** *** Invariants of the loop *)

(** A property of the buffer kept by the label resolution of every
    entry, together with a property of the operations dispatched on the
    resolved buffer, holds along any number of lines. *)
Lemma ingest_trace_inv metrics cfg (I : list string → Prop) (Q : MetricOp Float → Prop) :
  (∀ lv entry lv', I lv → resolve_labels MatchString cfg entry lv = Returns lv' →
     I lv' ∧ Forall Q (calls ParseFloat metrics entry lv')) →
  ∀ (lines : list string) st st', I (labelValues st) →
    ingest MatchString ParseFloat ParseString metrics cfg st lines = Returns st' →
    I (labelValues st') ∧ ∃ new, trace st' = trace st ++ new ∧ Forall Q new.
Proof.
  intros Hstep. induction lines as [|line lines IH]; intros st st' HI Hrun; simpl in Hrun.
  - injection Hrun as <-. split; [done|]. exists []. by rewrite app_nil_r.
  - apply bind_Returns in Hrun as (st1 & Hline & Hrun).
    assert (I (labelValues st1) ∧ ∃ new, trace st1 = trace st ++ new ∧ Forall Q new)
      as (HI1 & new1 & Htr1 & Hnew1).
    { destruct (ParseString line) as [entry|err] eqn:Hparse.
      - destruct (process_line_ok _ _ _ _ _ _ _ _ _ Hparse Hline) as (Hres & Htr & _).
        destruct (Hstep _ _ _ HI Hres) as [HI1 HQ]. split; [done|]. by eexists.
      - rewrite (process_line_err _ _ _ _ _ _ _ _ Hparse) in Hline.
        injection Hline as <-. simpl. split; [done|]. exists []. by rewrite app_nil_r. }
    destruct (IH _ _ HI1 Hrun) as (HI' & new & Htr & Hnew). split; [done|].
    exists (new1 ++ new). split; [by rewrite Htr, Htr1, app_assoc|].
    by apply Forall_app.
Qed.

Lemma run_trace_inv cfg (I : list string → Prop) (Q : MetricOp Float → Prop) :
  I (replicate (intrinsicLabelCount cfg) "" ++ OrderedLabelValues cfg
       ++ replicate (length (RelabelConfigs cfg)) "") →
  (∀ lv entry lv', I lv → resolve_labels MatchString cfg entry lv = Returns lv' →
     I lv' ∧ Forall Q (calls ParseFloat (Init cfg) entry lv')) →
  ∀ (lines : list string) st,
    run MatchString ParseFloat ParseString cfg lines = Returns st →
    I (labelValues st) ∧ Forall Q (trace st).
Proof.
  intros Hinit Hstep lines st. unfold run. rewrite start_make_fill. simpl. intros Hrun.
  apply (ingest_trace_inv _ _ I Q Hstep) in Hrun as (HI & new & Htr & Hnew); [|done].
  split; [done|]. by rewrite Htr.
Qed.

(** *** Counting the operations *)

Lemma count_app {A : Type} (test : A → bool) (l1 l2 : list A) :
  count test (l1 ++ l2) = count test l1 + count test l2.
Proof. induction l1 as [|x l1 IH]; simpl; [done|]. rewrite IH. lia. Qed.

Lemma calls_counts metrics entry lv :
  count is_Inc (calls ParseFloat metrics entry lv) = 1 ∧
  count is_Add (calls ParseFloat metrics entry lv) =
    match FloatField ParseFloat entry "body_bytes_sent" with Some _ => 1 | None => 0 end ∧
  count is_Observe (calls ParseFloat metrics entry lv) =
    match FloatField ParseFloat entry "upstream_response_time" with
    | Some _ => 2 | None => 0 end
    + match FloatField ParseFloat entry "request_time" with Some _ => 2 | None => 0 end.
Proof.
  unfold calls.
  by destruct (FloatField ParseFloat entry "body_bytes_sent"),
    (FloatField ParseFloat entry "upstream_response_time"),
    (FloatField ParseFloat entry "request_time").
Qed.

Lemma ingest_counts metrics cfg (lines : list string) : ∀ st st',
  ingest MatchString ParseFloat ParseString metrics cfg st lines = Returns st' →
  count is_Inc (trace st') = count is_Inc (trace st) + count (accepted ParseString) lines ∧
  count is_Add (trace st') =
    count is_Add (trace st)
    + count (numeric ParseFloat ParseString "body_bytes_sent") lines ∧
  count is_Observe (trace st') =
    count is_Observe (trace st)
    + 2 * count (numeric ParseFloat ParseString "upstream_response_time") lines
    + 2 * count (numeric ParseFloat ParseString "request_time") lines ∧
  stdout st' = stdout st ++ rejections ParseString lines.
Proof.
  induction lines as [|line lines IH]; intros st st' Hrun; simpl in Hrun.
  - injection Hrun as <-. simpl. rewrite app_nil_r. split_and!; lia || done.
  - apply bind_Returns in Hrun as (st1 & Hline & Hrun).
    apply IH in Hrun as (-> & -> & -> & ->). simpl. unfold accepted, numeric.
    destruct (ParseString line) as [entry|err] eqn:Hparse.
    + destruct (process_line_ok _ _ _ _ _ _ _ _ _ Hparse Hline) as (_ & -> & ->).
      rewrite !count_app.
      destruct (calls_counts metrics entry (labelValues st1)) as (-> & -> & ->).
      destruct (FloatField ParseFloat entry "body_bytes_sent"),
        (FloatField ParseFloat entry "upstream_response_time"),
        (FloatField ParseFloat entry "request_time"); split_and!; lia || done.
    + rewrite (process_line_err _ _ _ _ _ _ _ _ Hparse) in Hline.
      injection Hline as <-. simpl. rewrite <- app_assoc. split_and!; lia || done.
Qed.

(** When the loop got through the lines, the count-total counter was
    incremented once for every line the parser accepted, and no other
    vector was ever incremented. *)
Theorem count_total_per_line cfg (lines : list string) st :
  run MatchString ParseFloat ParseString cfg lines = Returns st →
  count is_Inc (trace st) = count (accepted ParseString) lines ∧
  Forall (λ op, is_Inc op = true → op_vec op = countTotal (Init cfg)) (trace st).
Proof.
  intros Hrun. split.
  - unfold run in Hrun. rewrite start_make_fill in Hrun. simpl in Hrun.
    by apply ingest_counts in Hrun as (-> & _).
  - apply (run_trace_inv cfg (λ _, True)
             (λ op, is_Inc op = true → op_vec op = countTotal (Init cfg))) in Hrun
      as [_ Hops]; [done..|].
    intros lv entry lv' _ _. split; [done|]. unfold calls.
    destruct (FloatField ParseFloat entry "body_bytes_sent"),
      (FloatField ParseFloat entry "upstream_response_time"),
      (FloatField ParseFloat entry "request_time"); simpl; repeat constructor; done.
Qed.

(** When the loop got through the lines, there is one addition for every
    line whose body_bytes_sent is a number, and two observations for
    every line whose upstream_response_time is a number plus two for
    every line whose request_time is a number. *)
Theorem conditional_updates_per_line cfg (lines : list string) st :
  run MatchString ParseFloat ParseString cfg lines = Returns st →
  count is_Add (trace st) = count (numeric ParseFloat ParseString "body_bytes_sent") lines ∧
  count is_Observe (trace st) =
    2 * count (numeric ParseFloat ParseString "upstream_response_time") lines
    + 2 * count (numeric ParseFloat ParseString "request_time") lines.
Proof.
  unfold run. rewrite start_make_fill. simpl.
  by intros (_ & -> & -> & _)%ingest_counts.
Qed.

(** When the loop got through the lines, standard output holds the
    message of every rejected line, in the order of the lines, and
    nothing else. *)
Theorem stdout_rejections cfg (lines : list string) st :
  run MatchString ParseFloat ParseString cfg lines = Returns st →
  stdout st = rejections ParseString lines ∧
  length (stdout st) + count (accepted ParseString) lines = length lines.
Proof.
  unfold run. rewrite start_make_fill. simpl.
  intros (_ & _ & _ & ->)%ingest_counts. simpl. split; [done|].
  clear. induction lines as [|line lines IH]; simpl; [done|].
  unfold accepted in *. destruct (ParseString line); simpl; lia.
Qed.

(** *** Lines that panic *)

(** With the vectors of [Init], a parsed line is processed to the end
    exactly when the label resolution returns, the client accepts the
    label values for the registered label names, and the number of bytes
    is not negative; the state it leaves is then determined. *)
Lemma process_line_Init_Returns cfg st line entry st' :
  ParseString line = ParseOk entry →
  process_line MatchString ParseFloat ParseString (Init cfg) cfg st line = Returns st' ↔
  ∃ lv, resolve_labels MatchString cfg entry (labelValues st) = Returns lv ∧
    accepts (init_labels cfg) lv ∧ bytes_not_negative ParseFloat entry ∧
    st' = {| labelValues := lv;
             trace := trace st ++ calls ParseFloat (Init cfg) entry lv;
             stdout := stdout st |}.
Proof.
  intros Hparse. unfold process_line. rewrite Hparse. split.
  - intros (lv & Hres & Hrun)%bind_Returns.
    apply bind_Returns in Hrun as (tr & (-> & Hacc & Hsign)%dispatch_inv & [= <-]).
    by exists lv.
  - intros (lv & -> & Hacc & Hsign & ->). simpl.
    by rewrite (dispatch_Init_Returns ParseFloat cfg entry lv (trace st) Hacc Hsign).
Qed.


(** The dispatch reads and writes no slice: a panic in it is one of the
    client. *)
Lemma dispatch_index_free metrics entry lv (tr : list (MetricOp Float)) acc idx len :
  dispatch ParseFloat metrics entry lv tr ≠ Panics acc idx len.
Proof.
  unfold dispatch, call_Inc, call_Add, call_Observe, WithLabelValues.
  repeat (case_match; simpl; try done).
Qed.

Lemma run_index_free cfg (lines : list string) :
  Routes cfg = [] →
  ∀ acc idx len, run MatchString ParseFloat ParseString cfg lines ≠ Panics acc idx len.
Proof.
  intros Hroutes. unfold run. destruct (start_spec (Float:=Float) cfg) as (lv & -> & Hlen & _).
  simpl. set (st0 := {| labelValues := lv; trace := []; stdout := [] |}).
  assert (length (labelValues st0) = totalLabelCount cfg) as Hst0 by done.
  clearbody st0. clear lv Hlen. revert st0 Hst0.
  induction lines as [|line lines IH]; intros st Hst acc idx len; simpl; [done|].
  destruct (process_line MatchString ParseFloat ParseString (Init cfg) cfg st line)
    as [st1|acc1 idx1 len1|why] eqn:Hline; simpl; [| |done].
  - apply IH. apply process_line_inv in Hline as (Hlen1 & _). congruence.
  - exfalso. unfold process_line in Hline.
    destruct (ParseString line) as [entry|err]; [|done].
    destruct (resolve_labels_returns MatchString cfg entry (labelValues st))
      as [lv' Hres]; [done| |].
    { unfold request_safe. destruct (entry !! "request"); [|done].
      left. unfold HasRouteMatchers. by rewrite Hroutes. }
    rewrite Hres in Hline. simpl in Hline.
    destruct (dispatch ParseFloat (Init cfg) entry lv' (trace st))
      as [tr|acc2 idx2 len2|why] eqn:Hdispatch; simpl in Hline; [done| |done].
    by apply dispatch_index_free in Hdispatch.
Qed.

(** Without route rules the loop never panics on an index, whatever the
    lines are: it gets through them, or it stops in a panic of the
    client. *)
Theorem run_total_without_routes cfg (lines : list string) :
  Routes cfg = [] →
  (∃ st, run MatchString ParseFloat ParseString cfg lines = Returns st) ∨
  (∃ why, run MatchString ParseFloat ParseString cfg lines = Aborts why).
Proof.
  intros Hroutes. pose proof (run_index_free cfg lines Hroutes) as Hfree.
  destruct (run MatchString ParseFloat ParseString cfg lines) as [st|acc idx len|why].
  - left. by exists st.
  - by destruct (Hfree acc idx len).
  - right. by exists why.
Qed.

(** *** Bounded label values *)

Lemma resolve_labels_route_absent cfg entry lv lv' :
  resolve_labels MatchString cfg entry lv = Returns lv' →
  entry !! "request" = None → HasRouteMatchers cfg = true →
  lv' !! 2 = lv !! 2.
Proof.
  unfold resolve_labels. intros Hres Hreq Hroutes.
  apply bind_Returns in Hres as (lv1 & [H0 ->]%set_index_Returns & Hres).
  apply bind_Returns in Hres as (lv2 & [H1 ->]%set_index_Returns & Hres).
  rewrite request_labels_absent in Hres by done. simpl in Hres.
  apply bind_Returns in Hres as (lv4 & Hst & Hres).
  apply relabel_loop_inv in Hres as (_ & _ & Hframe5).
  apply status_label_inv in Hst as (_ & Hframe4 & _).
  pose proof (offset_ge_intrinsic cfg). rewrite (intrinsic_routes _ Hroutes) in *.
  rewrite Hframe5, Hframe4 by lia. by rewrite !list_lookup_insert_ne by done.
Qed.

(** With route rules configured, the route slot of every operation
    recorded holds the empty string or one of the configured routes. *)
Theorem route_label_bounded cfg (lines : list string) st :
  Routes cfg ≠ [] →
  run MatchString ParseFloat ParseString cfg lines = Returns st →
  route_bounded cfg (labelValues st) ∧
  Forall (λ op, route_bounded cfg (op_labels op)) (trace st).
Proof.
  intros Hroutes%HasRouteMatchers_spec.
  apply (run_trace_inv cfg (route_bounded cfg) (λ op, route_bounded cfg (op_labels op))).
  - left. by rewrite (intrinsic_routes _ Hroutes).
  - intros lv entry lv' HI Hres.
    assert (route_bounded cfg lv') as HI'.
    { destruct (entry !! "request") as [request|] eqn:Hreq.
      - destruct (resolve_labels_route _ _ _ _ _ _ Hres Hreq Hroutes)
          as (lv0 & lv1 & Hclear & Hloop & Hslot).
        unfold route_bounded. rewrite Hslot.
        apply route_loop_inv in Hloop
          as [[_ ->]|(path & _ & [[_ ->]|(k & re & route & _ & _ & _ & Hroute & Hlt & ->)])];
          [by left..|].
        right. exists route. split; [by eapply list_elem_of_lookup_2|].
        by apply list_lookup_insert_eq.
      - unfold route_bounded.
        by rewrite (resolve_labels_route_absent _ _ _ _ Hres Hreq Hroutes). }
    split; [done|].
    eapply Forall_impl; [apply calls_ops|]. by intros op [-> _].
Qed.

Lemma relabel_value_bounded (c : RelabelConfig) entry :
  WhitelistExists c = true →
  relabel_value c entry ∈ WhitelistMap c ∨ relabel_value c entry = "other"
  ∨ relabel_value c entry = "".
Proof.
  unfold relabel_value. intros ->. destruct (Field entry (SourceValue c)) as [str|]; [|auto].
  simpl. destruct (decide (str ∈ WhitelistMap c)) as [Hin|Hout].
  - rewrite bool_decide_eq_true_2 by done. auto.
  - rewrite bool_decide_eq_false_2 by done. auto.
Qed.

(** The slot of a relabel rule with a whitelist holds, in every
    operation recorded, a member of the whitelist, "other" or the empty
    string. *)
Theorem whitelist_label_bounded cfg (lines : list string) st :
  run MatchString ParseFloat ParseString cfg lines = Returns st →
  Forall (λ op, whitelist_bounded cfg (op_labels op)) (trace st).
Proof.
  intros Hrun.
  apply (run_trace_inv cfg (λ _, True) (λ op, whitelist_bounded cfg (op_labels op)))
    in Hrun as [_ Hops]; [done..|].
  intros lv entry lv' _ Hres. split; [done|].
  apply resolve_labels_inv in Hres as (_ & _ & _ & _ & _ & Hrel & _).
  eapply Forall_impl; [apply calls_ops|]. intros op [-> _] i c Hc Hwl.
  exists (relabel_value c entry). split; [by apply Hrel|by apply relabel_value_bounded].
Qed.

(** *** Lines do not influence each other *)

Lemma route_loop_any_buffer cfg (res : list Regexp) : ∀ i (f : list string) lv lv' lvb,
  route_loop MatchString cfg res i f lv = Returns lv' → 2 < length lvb →
  ∃ lvb', route_loop MatchString cfg res i f lvb = Returns lvb' ∧
    (lv !! 2 = lvb !! 2 → lv' !! 2 = lvb' !! 2).
Proof.
  induction res as [|re res IH]; intros i f lv lv' lvb Hrun Hlen; simpl in *.
  - injection Hrun as <-. by exists lvb.
  - apply bind_Returns in Hrun as (path & Hpath & Hrun). rewrite Hpath. simpl.
    destruct (MatchString re path); [|by apply (IH _ _ lv)].
    apply bind_Returns in Hrun as (route & Hroute & [Hlt ->]%set_index_Returns).
    rewrite Hroute. simpl. rewrite set_index_lt by done.
    eexists. split; [done|]. intros _. by rewrite !list_lookup_insert_eq.
Qed.

Lemma request_labels_any_buffer cfg entry lv lv' lvb :
  request_labels MatchString cfg entry lv = Returns lv' → length lvb = length lv →
  ∃ lvb', request_labels MatchString cfg entry lvb = Returns lvb'.
Proof.
  intros Hrun Hlen. destruct (entry !! "request") as [request|] eqn:Hreq.
  - destruct (request_labels_present _ _ _ _ _ _ Hreq Hrun) as (tok & Htok & Hlt & Hcase).
    unfold request_labels, Field. rewrite Hreq.
    rewrite (proj2 (index_Returns _ _ _) Htok). simpl.
    rewrite set_index_lt by lia. simpl.
    destruct (HasRouteMatchers cfg); [|by eexists].
    destruct Hcase as [Hlt2 Hloop].
    rewrite set_index_lt by (rewrite length_insert; lia). simpl.
    destruct (route_loop_any_buffer _ _ _ _ _ _ (<[2:=""]> (<[0:=tok]> lvb)) Hloop)
      as (lvb' & -> & _); [rewrite !length_insert; lia|by eexists].
  - rewrite request_labels_absent by done. by eexists.
Qed.

Lemma resolve_labels_any_buffer cfg entry lv lv' lvb :
  resolve_labels MatchString cfg entry lv = Returns lv' →
  length lv = totalLabelCount cfg → length lvb = totalLabelCount cfg →
  ∃ lvb', resolve_labels MatchString cfg entry lvb = Returns lvb'.
Proof.
  unfold resolve_labels. intros Hres Hlen Hlenb.
  pose proof (intrinsic_ge_2 cfg) as Hi. pose proof (offset_ge_intrinsic cfg) as Ho.
  rewrite total_eq in Hlen, Hlenb.
  apply bind_Returns in Hres as (lv1 & [H0 ->]%set_index_Returns & Hres).
  apply bind_Returns in Hres as (lv2 & [H1 ->]%set_index_Returns & Hres).
  apply bind_Returns in Hres as (lv3 & Hreq & _).
  rewrite set_index_lt by lia. simpl.
  rewrite set_index_lt by (rewrite length_insert; lia). simpl.
  destruct (request_labels_any_buffer _ _ _ _ (<[1:="0"]> (<[0:="UNKNOWN"]> lvb)) Hreq)
    as [lvb3 Hreqb]; [by rewrite !length_insert; lia|].
  rewrite Hreqb. simpl.
  apply request_labels_inv in Hreqb as (Hlen3 & _). rewrite !length_insert in Hlen3.
  assert (∃ lvb4, status_label entry lvb3 = Returns lvb4 ∧ length lvb4 = length lvb)
    as (lvb4 & -> & Hlen4).
  { unfold status_label. destruct (Field entry "status") as [s|].
    - rewrite set_index_lt by lia. eexists. split; [done|]. by rewrite length_insert.
    - by eexists. }
  simpl. apply relabel_loop_returns. lia.
Qed.

(** On two buffers of the computed length with the same static slots,
    an entry that has a request field (or any entry, without route rules)
    resolves to the same label values. *)
Lemma resolve_labels_stateless cfg entry lva lvb lva' :
  length lva = totalLabelCount cfg → length lvb = totalLabelCount cfg →
  (∀ p, intrinsicLabelCount cfg ≤ p < relabelLabelOffset cfg → lva !! p = lvb !! p) →
  is_Some (entry !! "request") ∨ HasRouteMatchers cfg = false →
  resolve_labels MatchString cfg entry lva = Returns lva' →
  resolve_labels MatchString cfg entry lvb = Returns lva'.
Proof.
  intros Hlena Hlenb Hstatic Hcond Hresa.
  destruct (resolve_labels_any_buffer _ _ _ _ lvb Hresa Hlena Hlenb) as [lvb' Hresb].
  rewrite Hresb. f_equal. symmetry. apply list_eq. intros p.
  pose proof (resolve_labels_inv _ _ _ _ _ Hresa)
    as (Hla & _ & Habsa & Hpresa & Hsta & Hrela & Hframea).
  pose proof (resolve_labels_inv _ _ _ _ _ Hresb)
    as (Hlb & _ & Habsb & Hpresb & Hstb & Hrelb & Hframeb).
  pose proof (intrinsic_ge_2 cfg) as Hi. pose proof (offset_ge_intrinsic cfg) as Ho.
  destruct (decide (p = 0)) as [->|Hp0].
  { destruct (entry !! "request") as [request|] eqn:Hreq.
    - by rewrite (Hpresa _ eq_refl), (Hpresb _ eq_refl).
    - by rewrite Habsa, Habsb. }
  destruct (decide (p = 1)) as [->|Hp1]; [by rewrite Hsta, Hstb|].
  destruct (decide (p < intrinsicLabelCount cfg)) as [Hroute|Hge].
  { unfold intrinsicLabelCount in Hroute.
    destruct (HasRouteMatchers cfg) eqn:Hroutes; [|lia].
    assert (p = 2) as -> by lia.
    destruct Hcond as [[request Hreq]|?]; [|done].
    destruct (resolve_labels_route _ _ _ _ _ _ Hresa Hreq Hroutes)
      as (lv0a & lv1a & Hcleara & Hloopa & ->).
    destruct (resolve_labels_route _ _ _ _ _ _ Hresb Hreq Hroutes)
      as (lv0b & lv1b & Hclearb & Hloopb & ->).
    destruct (route_loop_any_buffer _ _ _ _ _ _ lv0b Hloopa) as (lv1b' & Hloopb' & Hslot).
    { by eapply lookup_lt_Some. }
    rewrite Hloopb in Hloopb'. injection Hloopb' as <-.
    apply Hslot. by rewrite Hcleara, Hclearb. }
  destruct (decide (p < relabelLabelOffset cfg)) as [Hstat|Hrelp].
  { rewrite Hframea, Hframeb by lia. apply Hstatic. lia. }
  destruct (decide (p < totalLabelCount cfg)) as [Hin|Hout].
  - rewrite total_eq in Hin.
    destruct (lookup_lt_is_Some_2 (RelabelConfigs cfg) (p - relabelLabelOffset cfg))
      as [c Hc]; [lia|].
    replace p with (p - relabelLabelOffset cfg + relabelLabelOffset cfg) by lia.
    by rewrite (Hrela _ _ Hc), (Hrelb _ _ Hc).
  - by rewrite !lookup_ge_None_2 by lia.
Qed.

(** The label values of a line that has a request field (of any line,
    without route rules) do not depend on the lines processed before it:
    after any two histories the line is processed to the end in both or
    in none, with the same label values. *)
Theorem label_vector_stateless cfg (la lb : list string) sta stb line entry sta' :
  run MatchString ParseFloat ParseString cfg la = Returns sta →
  run MatchString ParseFloat ParseString cfg lb = Returns stb →
  ParseString line = ParseOk entry →
  is_Some (entry !! "request") ∨ Routes cfg = [] →
  process_line MatchString ParseFloat ParseString (Init cfg) cfg sta line = Returns sta' →
  ∃ stb', process_line MatchString ParseFloat ParseString (Init cfg) cfg stb line
            = Returns stb' ∧
    labelValues stb' = labelValues sta'.
Proof.
  intros (Hlena & Hstatica & _)%run_inv (Hlenb & Hstaticb & _)%run_inv Hparse Hcond Hline.
  apply (process_line_Init_Returns _ _ _ _ _ Hparse) in Hline
    as (lv & Hres & Hacc & Hsign & ->).
  apply (resolve_labels_stateless _ _ _ (labelValues stb)) in Hres; [|done..| |].
  - exists {| labelValues := lv;
              trace := trace stb ++ calls ParseFloat (Init cfg) entry lv;
              stdout := stdout stb |}.
    split; [|done]. apply (process_line_Init_Returns _ _ _ _ _ Hparse). by exists lv.
  - intros p Hp. unfold relabelLabelOffset in Hp.
    destruct (lookup_lt_is_Some_2 (OrderedLabelValues cfg) (p - intrinsicLabelCount cfg))
      as [v Hv]; [lia|].
    replace p with (p - intrinsicLabelCount cfg + intrinsicLabelCount cfg) by lia.
    by rewrite (Hstatica _ _ Hv), (Hstaticb _ _ Hv).
  - destruct Hcond as [?|Hroutes]; [by left|right].
    unfold HasRouteMatchers. by rewrite Hroutes.
Qed.

(** *** Several namespaces *)

Lemma vec_id_namespace (cfgs : list (NamespaceConfig Regexp)) (id : string * string) :
  id ∈ vec_id <$> concat ((λ c, registered (Init c)) <$> cfgs) →
  id.1 ∈ Name <$> cfgs.
Proof.
  induction cfgs as [|c cfgs IH]; csimpl; [by intros ?%elem_of_nil|].
  rewrite !elem_of_cons. intros H.
  decompose [or] H; [left; by subst..|right; by apply IH].
Qed.

(** Namespaces with pairwise distinct names give vectors with pairwise
    distinct pairs of namespace and name: no two of the vectors created
    for a configuration collide. *)
Theorem namespaces_vectors_distinct (cfgs : list (NamespaceConfig Regexp)) :
  NoDup (Name <$> cfgs) →
  NoDup (vec_id <$> concat ((λ c, registered (Init c)) <$> cfgs)).
Proof.
  induction cfgs as [|c cfgs IH]; csimpl; [intros _; apply NoDup_nil_2|].
  intros [Hc Hrest]%NoDup_cons. unfold vec_id at 1 2 3 4 5 6. simpl.
  repeat (apply NoDup_cons_2;
          [rewrite ?not_elem_of_cons; split_and?; try (by intros [=]);
           intros Hin%vec_id_namespace; by apply Hc|]).
  by apply IH.
Qed.

(** *** Lines without a request field *)



End Further.

(** ** The start of the process *)

Section StartupProperties.

Context {Regexp : Type}.
Context (LoadConfigFromFile : Startup.Config Regexp → string → Startup.Config Regexp + string).
Context (LoadConfigFromFlags :
           Startup.Config Regexp → Startup.StartupFlags → Startup.Config Regexp + string).
Context (StabilityWarnings : Startup.Config Regexp → option string).
Context (show : Startup.Config Regexp → string).
Context {ConsulRegistrator : Type}.
Context (NewConsulRegistrator : Startup.Config Regexp → ConsulRegistrator + string).
Context (RegisterConsul : ConsulRegistrator → option string).
Context (ListenAndServe : string → option string).

Local Abbreviation event := (Startup.event Regexp ConsulRegistrator).
Local Abbreviation load :=
  (Startup.load Regexp LoadConfigFromFile LoadConfigFromFlags ConsulRegistrator).
Local Abbreviation serve := (Startup.serve Regexp ConsulRegistrator ListenAndServe).
Local Abbreviation register :=
  (Startup.register Regexp ConsulRegistrator NewConsulRegistrator RegisterConsul
     ListenAndServe).
Local Abbreviation main :=
  (Startup.main Regexp LoadConfigFromFile LoadConfigFromFlags StabilityWarnings show
     ConsulRegistrator NewConsulRegistrator RegisterConsul ListenAndServe).
Local Abbreviation started := (Startup.started Regexp ConsulRegistrator).
Local Abbreviation is_Stderr := (Startup.is_Stderr Regexp ConsulRegistrator).
Local Abbreviation is_consul := (Startup.is_consul Regexp ConsulRegistrator).
Local Abbreviation is_namespace := (Startup.is_namespace Regexp ConsulRegistrator).
Local Abbreviation quiet := (λ e : event, ¬ is_Stderr e ∧ ¬ is_consul e ∧ ¬ is_namespace e).

Implicit Types (cfg : Startup.Config Regexp) (events : list event).

(** The address the server listens on. *)
Local Abbreviation listenAddr cfg :=
  (Startup.Address (Startup.Listen cfg) ++ ":"
     ++ pretty (Startup.Port (Startup.Listen cfg)))%string.

Lemma started_app events1 events2 :
  started (events1 ++ events2) = started events1 ++ started events2.
Proof. unfold Startup.started. apply omap_app. Qed.

Lemma started_quiet events : Forall quiet events → started events = [].
Proof.
  induction 1 as [|e events (_ & _ & He) _ IH]; [done|].
  destruct e; simpl in He; try exact IH. by destruct He.
Qed.

Lemma load_quiet opts : Forall quiet (load opts).1.
Proof.
  unfold Startup.load. case_decide; simpl; [|done].
  repeat constructor; simpl; tauto.
Qed.

(** What [serve] adds: a goroutine for every namespace, in order, no
    call to Consul and nothing on standard error. *)
Lemma serve_inv cfg events :
  ∃ new, (serve cfg events).1 = events ++ new ∧
    started new = Startup.Namespaces cfg ∧
    Forall (λ e, ¬ is_Stderr e ∧ ¬ is_consul e) new ∧
    (serve cfg events).2 =
      match ListenAndServe (listenAddr cfg) with
      | Some _ => Startup.Exit 0
      | None => Startup.Serving
      end.
Proof.
  unfold Startup.serve.
  set (spawn := mjoin _).
  assert (started spawn = Startup.Namespaces cfg ∧
          Forall (λ e : event, ¬ is_Stderr e ∧ ¬ is_consul e) spawn) as [Hspawn Hquiet].
  { subst spawn. induction (Startup.Namespaces cfg) as [|ns nss [IH1 IH2]]; csimpl.
    - by split.
    - unfold Startup.started in *. simpl. rewrite IH1. split; [done|].
      repeat constructor; simpl; tauto || done. }
  eexists (spawn ++ [_; _]).
  destruct (ListenAndServe _); simpl; rewrite <- app_assoc;
    (split_and!; [done| |apply Forall_app; split; [done|repeat constructor; simpl; tauto]|done]);
    rewrite started_app, Hspawn; unfold Startup.started; simpl; by rewrite app_nil_r.
Qed.

(** What [register] adds, and how it ends. *)
Lemma register_inv cfg events :
  ∃ new, (register cfg events).1 = events ++ new ∧
    Forall (λ e, ¬ is_Stderr e) new ∧
    (Forall (λ e, ¬ is_consul e) new ∨ Startup.Enable (Startup.Consul cfg) = true) ∧
    ((started new = [] ∧ ∃ err, (register cfg events).2 = Startup.Panic err) ∨
     (started new = Startup.Namespaces cfg ∧
      (Startup.Enable (Startup.Consul cfg) = false ∨
       ∃ registrator, NewConsulRegistrator cfg = inl registrator ∧
                      RegisterConsul registrator = None) ∧
      (register cfg events).2 =
        match ListenAndServe (listenAddr cfg) with
        | Some _ => Startup.Exit 0
        | None => Startup.Serving
        end)).
Proof.
  unfold Startup.register. destruct (Startup.Enable (Startup.Consul cfg)) eqn:Henable.
  - destruct (NewConsulRegistrator cfg) as [registrator|err] eqn:Hnew.
    + destruct (RegisterConsul registrator) as [err|] eqn:Hreg.
      * eexists [_; _]. simpl. split_and!; [done| |by right|].
        -- repeat constructor; simpl; tauto.
        -- left. split; [done|by eexists].
      * match goal with
        | |- context [Startup.serve _ _ _ cfg ?ev] =>
            destruct (serve_inv cfg ev) as (new & -> & Hstarted & Hquiet & ->)
        end.
        eexists ([_; _] ++ [_] ++ new). rewrite <- !app_assoc.
        split_and!; [done| |by right|].
        -- repeat (apply Forall_cons; split; [simpl; tauto|]).
           eapply Forall_impl; [exact Hquiet|]. by intros e [? _].
        -- right. rewrite !started_app, Hstarted. split_and!; [done| |done].
           right. by exists registrator.
    + exists []. rewrite app_nil_r. simpl. split_and!; [done|done|by right|].
      left. split; [done|by eexists].
  - destruct (serve_inv cfg events) as (new & -> & Hstarted & Hquiet & ->).
    exists new. split_and!; [done| | |].
    + eapply Forall_impl; [exact Hquiet|]. by intros e [? _].
    + left. eapply Forall_impl; [exact Hquiet|]. by intros e [_ ?].
    + right. split_and!; [done|by left|done].
Qed.

(** The three ways through [main]: the load fails, the experimental
    gate stops the process, or the registration and the server run. *)
Lemma main_cases opts :
  (∃ err, (load opts).2 = inr err ∧ main opts = ((load opts).1, Startup.Panic err)) ∨
  (∃ cfg printed, (load opts).2 = inl cfg ∧ Forall quiet printed ∧
     ((∃ warning errs, StabilityWarnings cfg = Some warning ∧
         Startup.EnableExperimentalFeatures opts = false ∧
         Forall (λ e, ¬ is_consul e ∧ ¬ is_namespace e) errs ∧
         main opts = (printed ++ errs, Startup.Exit 1)) ∨
      ((StabilityWarnings cfg = None ∨ Startup.EnableExperimentalFeatures opts = true) ∧
       main opts = register cfg printed))).
Proof.
  unfold Startup.main. pose proof (load_quiet opts) as Hquiet.
  destruct (load opts) as [events [cfg|err]]; simpl in *; [|left; by eexists].
  right.
  exists cfg, (events ++ [Startup.Stdout ("using configuration " ++ show cfg ++ Startup.nl)%string]).
  split; [done|]. split.
  { apply Forall_app. split; [exact Hquiet|]. repeat constructor; simpl; tauto. }
  destruct (StabilityWarnings cfg) as [warning|] eqn:Hwarn; [|right; split; [by left|done]].
  destruct (Startup.EnableExperimentalFeatures opts) eqn:Hflag; simpl;
    [right; split; [by right|done]|].
  left. eexists warning, [_; _]. split_and!; [done|done| |done].
  repeat constructor; simpl; tauto.
Qed.

Lemma quiet_weaken events :
  Forall quiet events →
  Forall (λ e, ¬ is_Stderr e) events ∧ Forall (λ e, ¬ is_consul e ∧ ¬ is_namespace e) events.
Proof.
  intros H. split; (eapply Forall_impl; [exact H|]); intros e (? & ? & ?); tauto.
Qed.

(** [main] ends with status 1 exactly when the configuration loads, it
    has a stability warning and the experimental flag is off; Consul was
    not called and no namespace goroutine was started by then. *)
Theorem exit_one_iff opts :
  ((main opts).2 = Startup.Exit 1 ↔
   ∃ cfg warning, (load opts).2 = inl cfg ∧ StabilityWarnings cfg = Some warning ∧
     Startup.EnableExperimentalFeatures opts = false) ∧
  ((main opts).2 = Startup.Exit 1 →
   Forall (λ e, ¬ is_consul e ∧ ¬ is_namespace e) (main opts).1).
Proof.
  destruct (main_cases opts)
    as [(err & Hload & ->)|(cfg & printed & Hload & Hquiet &
          [(warning & errs & Hwarn & Hflag & Herrs & ->)|[Hgate ->]])]; simpl.
  - split; [|done]. split; [done|]. intros (cfg & w & Hcfg & _). congruence.
  - split.
    + split; [by eexists _, _|done].
    + intros _. apply Forall_app. split; [by apply quiet_weaken|done].
  - destruct (register_inv cfg printed)
      as (new & _ & _ & _ & [[_ [err Hend]]|(_ & _ & Hend)]); rewrite Hend.
    + split; [|done]. split; [done|]. intros (cfg' & w & Hcfg & Hw & Hflag).
      rewrite Hload in Hcfg. injection Hcfg as <-. destruct Hgate; congruence.
    + assert (∀ o : option string,
                match o with Some _ => Startup.Exit 0 | None => Startup.Serving end
                ≠ Startup.Exit 1) as Hne by (by intros []).
      split; [|by intros ?%Hne]. split; [by intros ?%Hne|].
      intros (cfg' & w & Hcfg & Hw & Hflag).
      rewrite Hload in Hcfg. injection Hcfg as <-. destruct Hgate; congruence.
Qed.

(** Consul is called only when the configuration loaded, it enables
    Consul, and the experimental gate let the process through. *)
Theorem consul_gated opts (e : event) :
  e ∈ (main opts).1 → is_consul e →
  ∃ cfg, (load opts).2 = inl cfg ∧ Startup.Enable (Startup.Consul cfg) = true ∧
    (StabilityWarnings cfg = None ∨ Startup.EnableExperimentalFeatures opts = true).
Proof.
  destruct (main_cases opts)
    as [(err & Hload & ->)|(cfg & printed & Hload & [_ Hquiet]%quiet_weaken &
          [(warning & errs & Hwarn & Hflag & Herrs & ->)|[Hgate ->]])]; simpl.
  - intros He Hc. pose proof (load_quiet opts) as [_ Hq]%quiet_weaken.
    rewrite Forall_forall in Hq. by destruct (Hq _ He).
  - intros [He|He]%elem_of_app Hc.
    + rewrite Forall_forall in Hquiet. by destruct (Hquiet _ He).
    + rewrite Forall_forall in Herrs. by destruct (Herrs _ He).
  - destruct (register_inv cfg printed) as (new & -> & _ & Hconsul & _).
    intros [He|He]%elem_of_app Hc.
    + rewrite Forall_forall in Hquiet. by destruct (Hquiet _ He).
    + exists cfg. split_and!; [done| |done].
      destruct Hconsul as [Hnone|?]; [|done].
      rewrite Forall_forall in Hnone. by destruct (Hnone _ He).
Qed.

(** The goroutines of the namespaces are started for all of them, in
    the order of the configuration, or for none: for all exactly when
    [main] reaches the HTTP server, which needs the configuration to
    load, the experimental gate to pass and, when Consul is enabled, the
    registration to succeed. *)
Theorem namespaces_all_or_none opts :
  (started (main opts).1 = [] ∧
   ((∃ err, (main opts).2 = Startup.Panic err) ∨ (main opts).2 = Startup.Exit 1)) ∨
  (∃ cfg, (load opts).2 = inl cfg ∧ started (main opts).1 = Startup.Namespaces cfg ∧
     ((main opts).2 = Startup.Serving ∨ (main opts).2 = Startup.Exit 0) ∧
     (StabilityWarnings cfg = None ∨ Startup.EnableExperimentalFeatures opts = true) ∧
     (Startup.Enable (Startup.Consul cfg) = false ∨
      ∃ registrator, NewConsulRegistrator cfg = inl registrator ∧
                     RegisterConsul registrator = None)).
Proof.
  destruct (main_cases opts)
    as [(err & Hload & ->)|(cfg & printed & Hload & Hquiet &
          [(warning & errs & Hwarn & Hflag & Herrs & ->)|[Hgate ->]])]; simpl.
  - left. split; [|left; by eexists]. apply started_quiet, load_quiet.
  - left. split; [|by right]. rewrite started_app, (started_quiet _ Hquiet). simpl.
    clear -Herrs. induction Herrs as [|e errs [_ He] _ IH]; [done|].
    destruct e; simpl in He; try exact IH. by destruct He.
  - destruct (register_inv cfg printed)
      as (new & -> & _ & _ & [[Hnone [err ->]]|(Hstarted & Hconsul & ->)]).
    + left. split; [|left; by eexists].
      by rewrite started_app, (started_quiet _ Hquiet), Hnone.
    + right. exists cfg. split_and!; [done| | |done|done].
      * by rewrite started_app, (started_quiet _ Hquiet), Hstarted.
      * destruct (ListenAndServe _); [by right|by left].
Qed.

End StartupProperties.

(** ** The further properties on the concrete instances *)




Lemma arity_law_witness :
  Forall (λ op, length (op_labels op) + length (OrderedLabelNames Demo.cfg) =
                length (vecLabels (op_vec op)) + length (OrderedLabelValues Demo.cfg))
    (trace DemoMore.st3).
Proof.
  apply (arity_law Demo.MatchString Demo.ParseFloat Demo.ParseString Demo.cfg
           DemoMore.lines3).
  vm_compute. reflexivity.
Defined.

Lemma count_total_per_line_witness :
  count is_Inc (trace DemoMore.st3) = count (accepted Demo.ParseString) DemoMore.lines3 ∧
  Forall (λ op, is_Inc op = true → op_vec op = countTotal (Init Demo.cfg))
    (trace DemoMore.st3).
Proof.
  apply (count_total_per_line Demo.MatchString Demo.ParseFloat Demo.ParseString Demo.cfg
           DemoMore.lines3 DemoMore.st3).
  vm_compute. reflexivity.
Defined.

Lemma conditional_updates_per_line_witness :
  count is_Add (trace DemoMore.st3) =
    count (numeric Demo.ParseFloat Demo.ParseString "body_bytes_sent") DemoMore.lines3 ∧
  count is_Observe (trace DemoMore.st3) =
    2 * count (numeric Demo.ParseFloat Demo.ParseString "upstream_response_time")
          DemoMore.lines3
    + 2 * count (numeric Demo.ParseFloat Demo.ParseString "request_time") DemoMore.lines3.
Proof.
  apply (conditional_updates_per_line Demo.MatchString Demo.ParseFloat Demo.ParseString
           Demo.cfg DemoMore.lines3 DemoMore.st3).
  vm_compute. reflexivity.
Defined.

Lemma stdout_rejections_witness :
  stdout DemoMore.st3 = rejections Demo.ParseString DemoMore.lines3 ∧
  length (stdout DemoMore.st3) + count (accepted Demo.ParseString) DemoMore.lines3 =
    length DemoMore.lines3.
Proof.
  apply (stdout_rejections Demo.MatchString Demo.ParseFloat Demo.ParseString Demo.cfg
           DemoMore.lines3 DemoMore.st3).
  vm_compute. reflexivity.
Defined.


(** Without route rules the requests "GET" and "" are harmless; the
    fourth line stops the loop in the client. *)
Lemma run_total_without_routes_witness :
  (∃ st, Demo.run Demo.cfg_plain
           [Demo.line_short; Demo.line_empty; "garbage"; Demo.line_negative] = Returns st) ∨
  (∃ why, Demo.run Demo.cfg_plain
            [Demo.line_short; Demo.line_empty; "garbage"; Demo.line_negative] = Aborts why).
Proof.
  apply (run_total_without_routes Demo.MatchString Demo.ParseFloat Demo.ParseString
           Demo.cfg_plain
           [Demo.line_short; Demo.line_empty; "garbage"; Demo.line_negative]).
  reflexivity.
Defined.

Lemma route_label_bounded_witness :
  route_bounded Demo.cfg (labelValues DemoMore.st3) ∧
  Forall (λ op, route_bounded Demo.cfg (op_labels op)) (trace DemoMore.st3).
Proof.
  apply (route_label_bounded Demo.MatchString Demo.ParseFloat Demo.ParseString Demo.cfg
           DemoMore.lines3 DemoMore.st3).
  - discriminate.
  - vm_compute. reflexivity.
Defined.

Lemma whitelist_label_bounded_witness :
  Forall (λ op, whitelist_bounded Demo.cfg (op_labels op)) (trace DemoMore.st3).
Proof.
  apply (whitelist_label_bounded Demo.MatchString Demo.ParseFloat Demo.ParseString Demo.cfg
           DemoMore.lines3 DemoMore.st3).
  vm_compute. reflexivity.
Defined.

Lemma label_vector_stateless_witness :
  ∃ stb', Demo.process_line (Init Demo.cfg) Demo.cfg DemoMore.st3 Demo.line1 = Returns stb' ∧
    labelValues stb' = labelValues Demo.st1.
Proof.
  apply (label_vector_stateless Demo.MatchString Demo.ParseFloat Demo.ParseString Demo.cfg
           [] DemoMore.lines3 Demo.st0 DemoMore.st3 Demo.line1 Demo.entry1 Demo.st1).
  - vm_compute. reflexivity.
  - vm_compute. reflexivity.
  - vm_compute. reflexivity.
  - left. exists "GET /api/v1 HTTP/1.1". vm_compute. reflexivity.
  - vm_compute. reflexivity.
Defined.

Lemma namespaces_vectors_distinct_witness :
  NoDup (vec_id <$> concat ((λ c, registered (Init c)) <$> [Demo.cfg; DemoMore.cfg_api])).
Proof.
  apply (namespaces_vectors_distinct [Demo.cfg; DemoMore.cfg_api]).
  simpl. apply NoDup_cons_2; [by intros [=]%list_elem_of_singleton|]. apply NoDup_singleton.
Defined.

Lemma consul_gated_witness :
  ∃ cfg, (StartupDemo.load StartupDemo.opts).2 = inl cfg ∧
    Startup.Enable (Startup.Consul cfg) = true ∧
    (StartupDemo.StabilityWarnings cfg = None ∨
     Startup.EnableExperimentalFeatures StartupDemo.opts = true).
Proof.
  apply (consul_gated StartupDemo.LoadConfigFromFile StartupDemo.LoadConfigFromFlags
           StartupDemo.StabilityWarnings StartupDemo.show StartupDemo.NewConsulRegistrator
           StartupDemo.RegisterConsul StartupDemo.ListenAndServe StartupDemo.opts
           (Startup.CallRegisterConsul tt)).
  - apply (list_elem_of_lookup_2 _ 3). vm_compute. reflexivity.
  - exact I.
Defined.
